(** * cs2-dumper: process attachment, PE introspection and pattern scanning

    A shallow embedding of [src/process.cpp] (namespace [process]) and of the
    call sites in [src/main.cpp], with the properties of the specification
    stated and settled against it.

    Conventions.
    - Fixed-width integers are [Z] with the wrap-around written out
      ([u32], [u64]); [std::size_t] and [std::uintptr_t] are 64 bits wide
      (the tool reads a 64-bit target).
    - A [std::string_view] is a [list ascii]; a byte buffer is a [list Z]
      of values in 0..255.
    - A read outside a local buffer is undefined behaviour in C++; the
      embedding makes it an explicit outcome, [Undefined], instead of
      inventing a value.
    - Loops run on fuel, with [Diverges] for a loop that runs out of it; the
      lemmas on each loop show that the fuel it is given suffices. *)

From Stdlib Require Import ZArith Ascii String List Bool Lia.
Import ListNotations.

Local Open Scope Z_scope.

(** ** Machine integers *)

Definition u32 (x : Z) : Z := x mod 2 ^ 32.
Definition u64 (x : Z) : Z := x mod 2 ^ 64.

Definition INT32_MIN : Z := - 2 ^ 31.
Definition INT32_MAX : Z := 2 ^ 31 - 1.

(** [size] of a [std::string_view] or [std::vector], as a [std::size_t]. *)
Definition size {A : Type} (l : list A) : Z := Z.of_nat (length l).

(** ** Outcomes *)

Inductive outcome (A : Type) : Type :=
| Returns (a : A)   (* the function returns [a] *)
| Undefined         (* a read outside a local buffer *)
| Diverges.         (* the loop ran out of fuel *)

Arguments Returns {A} a.
Arguments Undefined {A}.
Arguments Diverges {A}.

Definition bind {A B : Type} (m : outcome A) (k : A -> outcome B) : outcome B :=
  match m with
  | Returns a => k a
  | Undefined => Undefined
  | Diverges => Diverges
  end.

Notation "x <- m ;; k" := (bind m (fun x => k))
  (at level 61, m at next level, right associativity).

(** ** [std::from_chars] in base 16 on an [std::int32_t]

    The standard's pattern: an optional minus sign, then the longest run of
    digits of the base (for base 16: [0-9a-fA-F], no [0x] prefix, no plus
    sign, no leading whitespace).  No digit: [std::errc::invalid_argument].
    A value outside the type: [std::errc::result_out_of_range].  The result
    is [Some value] exactly when [ec == std::errc()]. *)

Definition between (lo x hi : Z) : bool := (lo <=? x) && (x <=? hi).

Definition hex_digit (c : ascii) : option Z :=
  let n := Z.of_N (N_of_ascii c) in
  if between 48 n 57 then Some (n - 48)
  else if between 97 n 102 then Some (n - 87)
  else if between 65 n 70 then Some (n - 55)
  else None.

Fixpoint leading_digits (cs : list ascii) : list Z :=
  match cs with
  | [] => []
  | c :: cs' =>
      match hex_digit c with
      | Some d => d :: leading_digits cs'
      | None => []
      end
  end.

Definition digits_value (ds : list Z) : Z :=
  fold_left (fun acc d => 16 * acc + d) ds 0.

Definition from_chars (cs : list ascii) : option Z :=
  let '(negative, rest) :=
    match cs with
    | c :: r => if Ascii.eqb c "-" then (true, r) else (false, cs)
    | [] => (false, cs)
    end in
  match leading_digits rest with
  | [] => None
  | ds =>
      let v := if negative then - digits_value ds else digits_value ds in
      if between INT32_MIN v INT32_MAX then Some v else None
  end.

(** ** [pattern_to_bytes] (process.cpp, lines 48-77)

    [i] is an [unsigned] (32 bits); [pattern.size()] is a [std::size_t].
    [data + i, data + i + 2) is the two-character range handed to
    [std::from_chars]. *)

Definition chars_at (pattern : list ascii) (i : Z) (n : nat) : list ascii :=
  firstn n (skipn (Z.to_nat i) pattern).

Fixpoint pattern_to_bytes_loop (fuel : nat) (pattern : list ascii) (i : Z)
    (bytes : list Z) : outcome (list Z) :=
  match fuel with
  | O => Diverges
  | S fuel' =>
      if i <? size pattern then
        match nth_error pattern (Z.to_nat i) with
        | None => Undefined
        | Some c =>
            if Ascii.eqb c "?" then
              pattern_to_bytes_loop fuel' pattern (u32 (i + 1)) (bytes ++ [-1])
            else if Ascii.eqb c " " then
              pattern_to_bytes_loop fuel' pattern (u32 (i + 1)) bytes
            else if u32 (i + 1) <? size pattern then
              match from_chars (chars_at pattern i 2) with
              | Some value =>
                  pattern_to_bytes_loop fuel' pattern (u32 (u32 (i + 1) + 1))
                    (bytes ++ [value])
              | None =>
                  pattern_to_bytes_loop fuel' pattern (u32 (i + 1)) bytes
              end
            else pattern_to_bytes_loop fuel' pattern (u32 (i + 1)) bytes
        end
      else Returns bytes
  end.

Definition pattern_to_bytes (pattern : list ascii) : outcome (list Z) :=
  pattern_to_bytes_loop (S (length pattern)) pattern 0 [].

(** String literals as [std::string_view]s. *)
Definition str (s : string) : list ascii := list_ascii_of_string s.

(** ** The operating system

    What the Win32 calls of process.cpp observe: the process list and the
    module lists that [CreateToolhelp32Snapshot] captures, the handle
    [OpenProcess] gives, and the bytes mapped in the address space behind a
    handle. *)

Record PROCESSENTRY32 : Type := {
  th32ProcessID : Z;
  szExeFile : list ascii
}.

Record MODULEENTRY32 : Type := {
  modBaseAddr : Z;
  szModule : list ascii
}.

Record OS : Type := {
  (* TH32CS_SNAPPROCESS; [None] is INVALID_HANDLE_VALUE *)
  process_list : option (list PROCESSENTRY32);
  (* TH32CS_SNAPMODULE | TH32CS_SNAPMODULE32 of a process id *)
  module_list : Z -> option (list MODULEENTRY32);
  (* OpenProcess(PROCESS_ALL_ACCESS, 0, pid); 0 is the null handle *)
  OpenProcess : Z -> Z;
  (* the byte mapped at an address of the process behind a handle *)
  memory : Z -> Z -> option Byte.byte
}.

(** Toolhelp snapshots: [First] copies the first entry and [Next] the one
    after the entry copied last; each returns FALSE, leaving the caller's
    entry alone, when there is no such entry. *)
Module Toolhelp.
Section Snapshot.
Variable E : Type.

Record snapshot : Type := {
  entries : list E;
  cursor : nat
}.

Definition create (l : list E) : snapshot :=
  {| entries := l; cursor := 0 |}.

Definition First (s : snapshot) (entry : E) : bool * snapshot * E :=
  match entries s with
  | [] => (false, s, entry)
  | e :: _ => (true, {| entries := entries s; cursor := 1 |}, e)
  end.

Definition Next (s : snapshot) (entry : E) : bool * snapshot * E :=
  match nth_error (entries s) (cursor s) with
  | None => (false, s, entry)
  | Some e => (true, {| entries := entries s; cursor := S (cursor s) |}, e)
  end.
End Snapshot.

Arguments entries {E} s.
Arguments cursor {E} s.
Arguments create {E} l.
Arguments First {E} s entry.
Arguments Next {E} s entry.
End Toolhelp.

Definition Process32First := @Toolhelp.First PROCESSENTRY32.
Definition Process32Next := @Toolhelp.Next PROCESSENTRY32.
Definition Module32First := @Toolhelp.First MODULEENTRY32.
Definition Module32Next := @Toolhelp.Next MODULEENTRY32.

(** [ReadProcessMemory] with a null [lpNumberOfBytesRead]: all [n] bytes or
    failure. *)
Fixpoint read_bytes (mem : Z -> option Byte.byte) (address : Z) (n : nat)
    : option (list Byte.byte) :=
  match n with
  | O => Some []
  | S n' =>
      match mem address, read_bytes mem (address + 1) n' with
      | Some b, Some bs => Some (b :: bs)
      | _, _ => None
      end
  end.

Definition ReadProcessMemory (os : OS) (handle address n : Z)
    : option (list Byte.byte) :=
  if (handle =? 0) || (2 ^ 64 <? address + n) then None
  else read_bytes (memory os handle) address (Z.to_nat n).

(** ** Strings *)

Fixpoint string_view_eqb (a b : list ascii) : bool :=
  match a, b with
  | [], [] => true
  | x :: a', y :: b' => Ascii.eqb x y && string_view_eqb a' b'
  | _, _ => false
  end.

Definition to_lower (c : ascii) : ascii :=
  let n := N_of_ascii c in
  if (65 <=? n)%N && (n <=? 90)%N then ascii_of_N (n + 32) else c.

(** Modelled from the spec: [utility::string::equals_ignore_case] lives in
    utility/string.hpp, which is not among the sources.  The spec has module
    names compare equal "case-insensitively (ASCII)". *)
Definition equals_ignore_case (a b : list ascii) : bool :=
  string_view_eqb (map to_lower a) (map to_lower b).

(** ** The session (process.cpp, lines 12-14) *)

(** Modelled from the spec: [utility::SafeHandle] lives in
    utility/safe_handle.hpp, which is not among the sources.  The spec has it
    hold one kernel handle, with an empty state; the embedding keeps the raw
    handle value and 0 for the empty wrapper. *)
Record Session : Type := {
  process_id : Z;
  process_handle : Z
}.

Definition uninitialized : Session :=
  {| process_id := 0; process_handle := 0 |}.

(** ** [get_process_id_by_name] (process.cpp, lines 16-32) *)

Definition zero_PROCESSENTRY32 : PROCESSENTRY32 :=
  {| th32ProcessID := 0; szExeFile := [] |}.

Fixpoint get_process_id_by_name_loop (fuel : nat)
    (snapshot : Toolhelp.snapshot PROCESSENTRY32)
    (process_entry : PROCESSENTRY32) (process_name : list ascii)
    : outcome (option Z) :=
  match fuel with
  | O => Diverges
  | S fuel' =>
      let '(more, snapshot', process_entry') :=
        Process32Next snapshot process_entry in
      if more then
        if string_view_eqb (szExeFile process_entry') process_name then
          Returns (Some (th32ProcessID process_entry'))
        else
          get_process_id_by_name_loop fuel' snapshot' process_entry'
            process_name
      else Returns None
  end.

Definition get_process_id_by_name (os : OS) (process_name : list ascii)
    : outcome (option Z) :=
  match process_list os with
  | None => Returns None
  | Some l =>
      let snapshot := Toolhelp.create l in
      let process_entry := zero_PROCESSENTRY32 in
      let '(_, snapshot, process_entry) :=
        Process32First snapshot process_entry in
      get_process_id_by_name_loop (S (length l)) snapshot process_entry
        process_name
  end.

(** ** [attach] (process.cpp, lines 34-45)

    The result is the returned [bool] and the session after the call. *)

Definition attach (os : OS) (st : Session) (process_name : list ascii)
    : outcome (bool * Session) :=
  id <- get_process_id_by_name os process_name ;;
  match id with
  | None => Returns (false, st)
  | Some id =>
      let st := {| process_id := id; process_handle := process_handle st |} in
      let st := {| process_id := process_id st;
                   process_handle := OpenProcess os (process_id st) |} in
      Returns (negb (process_handle st =? 0), st)
  end.

(** ** [get_module_base_by_name] (process.cpp, lines 126-142) *)

Definition zero_MODULEENTRY32 : MODULEENTRY32 :=
  {| modBaseAddr := 0; szModule := [] |}.

Fixpoint get_module_base_by_name_loop (fuel : nat)
    (snapshot : Toolhelp.snapshot MODULEENTRY32)
    (module_entry : MODULEENTRY32) (module_name : list ascii)
    : outcome (option Z) :=
  match fuel with
  | O => Diverges
  | S fuel' =>
      let '(more, snapshot', module_entry') :=
        Module32Next snapshot module_entry in
      if more then
        if equals_ignore_case (szModule module_entry') module_name then
          Returns (Some (modBaseAddr module_entry'))
        else
          get_module_base_by_name_loop fuel' snapshot' module_entry'
            module_name
      else Returns None
  end.

Definition get_module_base_by_name (os : OS) (st : Session)
    (module_name : list ascii) : outcome (option Z) :=
  match module_list os (process_id st) with
  | None => Returns None
  | Some l =>
      let snapshot := Toolhelp.create l in
      let module_entry := zero_MODULEENTRY32 in
      let '(_, snapshot, module_entry) :=
        Module32First snapshot module_entry in
      get_module_base_by_name_loop (S (length l)) snapshot module_entry
        module_name
  end.

(** ** [loaded_modules] (process.cpp, lines 201-217) *)

Fixpoint loaded_modules_loop (fuel : nat)
    (snapshot : Toolhelp.snapshot MODULEENTRY32)
    (module_entry : MODULEENTRY32) (loaded_modules : list (list ascii))
    : outcome (list (list ascii)) :=
  match fuel with
  | O => Diverges
  | S fuel' =>
      let '(more, snapshot', module_entry') :=
        Module32Next snapshot module_entry in
      if more then
        loaded_modules_loop fuel' snapshot' module_entry'
          (loaded_modules ++ [szModule module_entry'])
      else Returns loaded_modules
  end.

Definition loaded_modules (os : OS) (st : Session)
    : outcome (option (list (list ascii))) :=
  match module_list os (process_id st) with
  | None => Returns None
  | Some l =>
      let snapshot := Toolhelp.create l in
      let module_entry := zero_MODULEENTRY32 in
      let '(_, snapshot, module_entry) :=
        Module32First snapshot module_entry in
      names <- loaded_modules_loop (S (length l)) snapshot module_entry [] ;;
      Returns (Some names)
  end.

(** ** [read_memory] and [read_string] (process.cpp, lines 219-237)

    [read_memory] returns the new contents of the caller's buffer on
    success. *)

Definition read_memory (os : OS) (st : Session) (address n : Z)
    : option (list Byte.byte) :=
  ReadProcessMemory os (process_handle st) address n.

Definition NUL : ascii := Ascii.zero.

Fixpoint find_char (c : ascii) (buffer : list ascii) : option nat :=
  match buffer with
  | [] => None
  | x :: rest =>
      if Ascii.eqb x c then Some O
      else option_map S (find_char c rest)
  end.

Definition read_string (os : OS) (st : Session) (address length : Z)
    : list ascii :=
  let buffer := repeat NUL (Z.to_nat length) in
  match read_memory os st address length with
  | None => []
  | Some bytes =>
      let buffer := map ascii_of_byte bytes in
      match find_char NUL buffer with
      | Some it => firstn it buffer
      | None => buffer
      end
  end.

(** ** Local buffers and the PE headers

    Field offsets are those of <winnt.h> for a 64-bit image
    (IMAGE_DOS_HEADER, IMAGE_NT_HEADERS64, IMAGE_OPTIONAL_HEADER64,
    IMAGE_EXPORT_DIRECTORY); fields are little-endian. *)

Definition byte_Z (b : Byte.byte) : Z := Z.of_N (Byte.to_N b).

Fixpoint le_combine (bs : list Byte.byte) : Z :=
  match bs with
  | [] => 0
  | b :: rest => byte_Z b + 256 * le_combine rest
  end.

(** The [n]-byte unsigned field at byte offset [off] of a local buffer. *)
Definition load (n : nat) (buffer : list Byte.byte) (off : Z) : outcome Z :=
  if (0 <=? off) && (off + Z.of_nat n <=? size buffer) then
    Returns (le_combine (firstn n (skipn (Z.to_nat off) buffer)))
  else Undefined.

Definition sign_extend_i32 (x : Z) : Z :=
  if x <? 2 ^ 31 then x else x - 2 ^ 32.

Definition IMAGE_DOS_SIGNATURE : Z := 0x5A4D.
Definition IMAGE_NT_SIGNATURE : Z := 0x4550.
Definition IMAGE_DIRECTORY_ENTRY_EXPORT : Z := 0.

Definition e_magic_offset : Z := 0.
Definition e_lfanew_offset : Z := 0x3C.
Definition Signature_offset : Z := 0.
Definition OptionalHeader_offset : Z := 24.
Definition SizeOfImage_offset : Z := 56.
Definition DataDirectory_offset : Z := 112.
Definition NumberOfNames_offset : Z := 24.
Definition AddressOfFunctions_offset : Z := 28.
Definition AddressOfNames_offset : Z := 32.
Definition AddressOfNameOrdinals_offset : Z := 36.

(** ** The scan of [find_pattern] (process.cpp, lines 108-123)

    [module_data] holds [module_size] bytes, so [module_size] is
    [size module_data].  [i] and [j] are [unsigned]; the bound
    [module_size - pattern.size()] is computed in [std::size_t], on the
    length of the pattern STRING. *)

Fixpoint match_loop (fuel : nat) (module_data : list Byte.byte)
    (pattern_bytes : list Z) (i j : Z) : outcome bool :=
  match fuel with
  | O => Diverges
  | S fuel' =>
      if j <? size pattern_bytes then
        match nth_error module_data (Z.to_nat (u32 (i + j))),
              nth_error pattern_bytes (Z.to_nat j) with
        | Some b, Some p =>
            if negb (byte_Z b =? p) && negb (p =? -1) then Returns false
            else match_loop fuel' module_data pattern_bytes i (u32 (j + 1))
        | _, _ => Undefined
        end
      else Returns true
  end.

Fixpoint scan_loop (fuel : nat) (module_data : list Byte.byte)
    (pattern : list ascii) (pattern_bytes : list Z) (i : Z)
    : outcome (option Z) :=
  match fuel with
  | O => Diverges
  | S fuel' =>
      if i <? u64 (size module_data - size pattern) then
        found <- match_loop (S (length pattern_bytes)) module_data
                   pattern_bytes i 0 ;;
        if (found : bool) then Returns (Some i)
        else scan_loop fuel' module_data pattern pattern_bytes (u32 (i + 1))
      else Returns None
  end.

Definition scan (module_data : list Byte.byte) (pattern : list ascii)
    (pattern_bytes : list Z) : outcome (option Z) :=
  scan_loop (S (length module_data)) module_data pattern pattern_bytes 0.

(** ** [find_pattern] (process.cpp, lines 47-124) *)

(** Lines 84-97, and again lines 145-158: the first 0x1000 bytes of the
    module with the DOS and NT signatures checked.  The result is the local
    copy and the offset of the NT headers in it. *)
Definition read_nt_headers (os : OS) (st : Session) (module_base : Z)
    : outcome (option (list Byte.byte * Z)) :=
  match read_memory os st module_base 0x1000 with
  | None => Returns None
  | Some headers =>
      e_magic <- load 2 headers e_magic_offset ;;
      if negb (e_magic =? IMAGE_DOS_SIGNATURE) then Returns None else
      e_lfanew <- load 4 headers e_lfanew_offset ;;
      let nt_headers := sign_extend_i32 e_lfanew in
      Signature <- load 4 headers (nt_headers + Signature_offset) ;;
      if negb (Signature =? IMAGE_NT_SIGNATURE) then Returns None
      else Returns (Some (headers, nt_headers))
  end.

(** Lines 84-104: the local copy of the whole image, [SizeOfImage] bytes. *)
Definition module_image (os : OS) (st : Session) (module_base : Z)
    : outcome (option (list Byte.byte)) :=
  checked <- read_nt_headers os st module_base ;;
  match checked with
  | None => Returns None
  | Some (headers, nt_headers) =>
      module_size <-
        load 4 headers
          (nt_headers + OptionalHeader_offset + SizeOfImage_offset) ;;
      Returns (read_memory os st module_base module_size)
  end.

Definition find_pattern (os : OS) (st : Session)
    (module_name pattern : list ascii) : outcome (option Z) :=
  module_base <- get_module_base_by_name os st module_name ;;
  match module_base with
  | None => Returns None
  | Some module_base =>
      module_data <- module_image os st module_base ;;
      match module_data with
      | None => Returns None
      | Some module_data =>
          pattern_bytes <- pattern_to_bytes pattern ;;
          found <- scan module_data pattern pattern_bytes ;;
          match found with
          | Some i => Returns (Some (u64 (module_base + i)))
          | None => Returns None
          end
      end
  end.

(** ** [get_module_export_by_name] (process.cpp, lines 144-199)

    [delta] turns an RVA into a pointer into the local copy of the export
    directory: the RVA [r] is byte [r - VirtualAddress] of the buffer. *)

(** The NUL-terminated string at byte offset [off] of a local buffer. *)
Fixpoint c_string_from (buffer : list Byte.byte) : outcome (list ascii) :=
  match buffer with
  | [] => Undefined
  | b :: rest =>
      if Ascii.eqb (ascii_of_byte b) NUL then Returns []
      else s <- c_string_from rest ;; Returns (ascii_of_byte b :: s)
  end.

Definition c_string (buffer : list Byte.byte) (off : Z)
    : outcome (list ascii) :=
  if (0 <=? off) && (off <? size buffer) then
    c_string_from (skipn (Z.to_nat off) buffer)
  else Undefined.

(** Lines 184-195: the address of the matched symbol, or nothing when the
    forwarded-export test fires. *)
Definition matched_export (module_base VirtualAddress Size rva : Z)
    : option Z :=
  let function_address := u64 (module_base + rva) in
  if (u64 (module_base + VirtualAddress) <=? function_address)
     && (function_address
         <=? u64 (u64 (module_base + VirtualAddress) + Size))
  then None
  else Some function_address.

Fixpoint export_loop (fuel : nat) (export_directory : list Byte.byte)
    (module_base VirtualAddress Size : Z)
    (name_table name_ordinal_table function_table : Z)
    (function_name : list ascii) (i : Z) : outcome (option Z) :=
  match fuel with
  | O => Diverges
  | S fuel' =>
      NumberOfNames <- load 4 export_directory NumberOfNames_offset ;;
      if i <? NumberOfNames then
        name_rva <- load 4 export_directory (name_table + 4 * i) ;;
        current_function_name <-
          c_string export_directory (name_rva - VirtualAddress) ;;
        if negb (string_view_eqb current_function_name function_name) then
          export_loop fuel' export_directory module_base VirtualAddress Size
            name_table name_ordinal_table function_table function_name
            (u32 (i + 1))
        else
          function_ordinal <-
            load 2 export_directory (name_ordinal_table + 2 * i) ;;
          function_rva <-
            load 4 export_directory (function_table + 4 * function_ordinal) ;;
          Returns (matched_export module_base VirtualAddress Size function_rva)
      else Returns None
  end.

Definition get_module_export_by_name (os : OS) (st : Session)
    (module_base : Z) (function_name : list ascii) : outcome (option Z) :=
  checked <- read_nt_headers os st module_base ;;
  match checked with
  | None => Returns None
  | Some (headers, nt_headers) =>
  let export_data_directory :=
    nt_headers + OptionalHeader_offset + DataDirectory_offset
    + 8 * IMAGE_DIRECTORY_ENTRY_EXPORT in
  VirtualAddress <- load 4 headers export_data_directory ;;
  Size <- load 4 headers (export_data_directory + 4) ;;
  if (VirtualAddress =? 0) || (Size =? 0) then Returns None else
  match read_memory os st (u64 (module_base + VirtualAddress)) Size with
  | None => Returns None
  | Some export_directory =>
  AddressOfNames <- load 4 export_directory AddressOfNames_offset ;;
  AddressOfNameOrdinals <-
    load 4 export_directory AddressOfNameOrdinals_offset ;;
  AddressOfFunctions <- load 4 export_directory AddressOfFunctions_offset ;;
  export_loop (S (length export_directory)) export_directory
    module_base VirtualAddress Size
    (AddressOfNames - VirtualAddress)
    (AddressOfNameOrdinals - VirtualAddress)
    (AddressOfFunctions - VirtualAddress)
    function_name 0
  end
  end.

(** ** [resolve_rip_relative_address] and [get_entity_list]
    (main.cpp, lines 76-83) *)

(** Modelled from the spec: [process::resolve_rip_relative_address] is
    declared in process.hpp, which is not among the sources.  The spec:
    read the 4-byte signed displacement at [addr + 3]; the absolute target
    is [addr + displacement + 7], a 64-bit address; on any read failure,
    nothing. *)
Definition resolve_rip_relative_address (os : OS) (st : Session)
    (address : Z) : option Z :=
  match read_memory os st (u64 (address + 3)) 4 with
  | None => None
  | Some bytes =>
      let displacement := sign_extend_i32 (le_combine bytes) in
      Some (u64 (address + displacement + 7))
  end.

Definition value_or {A : Type} (o : option A) (d : A) : A :=
  match o with
  | Some a => a
  | None => d
  end.

Definition get_entity_list (os : OS) (st : Session) : outcome Z :=
  address <- find_pattern os st (str "client.dll")
               (str "48 8B 0D ? ? ? ? 48 89 7C 24 ? 8B FA C1 EB") ;;
  match address with
  | None => Returns 0
  | Some address =>
      Returns (value_or (resolve_rip_relative_address os st address) 0)
  end.

(** ** [get_view_matrix] (main.cpp, lines 99-106) *)

Definition get_view_matrix (os : OS) (st : Session) : outcome Z :=
  address <- find_pattern os st (str "client.dll")
               (str "48 8D 0D ? ? ? ? 48 C1 E0 06") ;;
  match address with
  | None => Returns 0
  | Some address =>
      Returns (value_or (resolve_rip_relative_address os st address) 0)
  end.

(** * Vocabulary of the properties *)

(** ** Patterns *)

Definition is_hex (c : ascii) : bool :=
  match hex_digit c with
  | Some _ => true
  | None => false
  end.

Definition hex_value (c : ascii) : Z := value_or (hex_digit c) 0.

(** The compiler as a function of the input that is left: what the loop
    of [pattern_to_bytes] appends from position [i] on. *)
Fixpoint compile (s : list ascii) : list Z :=
  match s with
  | [] => []
  | c :: rest =>
      if Ascii.eqb c "?" then -1 :: compile rest
      else if Ascii.eqb c " " then compile rest
      else
        match rest with
        | [] => []
        | d :: rest' =>
            match from_chars [c; d] with
            | Some value => value :: compile rest'
            | None => compile rest
            end
        end
  end.

(** A token of a well-formed pattern string: [?] or two hex digits. *)
Inductive token : Type :=
| Wildcard
| HexPair (hi lo : ascii).

Definition well_formed (t : token) : bool :=
  match t with
  | Wildcard => true
  | HexPair hi lo => is_hex hi && is_hex lo
  end.

Definition token_text (t : token) : list ascii :=
  match t with
  | Wildcard => ["?"%char]
  | HexPair hi lo => [hi; lo]
  end.

Definition token_slot (t : token) : Z :=
  match t with
  | Wildcard => -1
  | HexPair hi lo => 16 * hex_value hi + hex_value lo
  end.

(** Tokens separated by single spaces. *)
Fixpoint join (ts : list token) : list ascii :=
  match ts with
  | [] => []
  | t :: rest =>
      match rest with
      | [] => token_text t
      | _ :: _ => token_text t ++ " "%char :: join rest
      end
  end.

(** The compiler as the specification words it: the tokens are the maximal
    runs without a space; [?] gives a wildcard, two hex digits give their
    byte, and any other token gives no slot. *)
Fixpoint tokens_from (s current : list ascii) : list (list ascii) :=
  let flush := match current with [] => [] | _ :: _ => [current] end in
  match s with
  | [] => flush
  | c :: rest =>
      if Ascii.eqb c " " then flush ++ tokens_from rest []
      else tokens_from rest (current ++ [c])
  end.

Definition claimed_slots (t : list ascii) : list Z :=
  match t with
  | [c] => if Ascii.eqb c "?" then [-1] else []
  | [hi; lo] =>
      if is_hex hi && is_hex lo then [16 * hex_value hi + hex_value lo]
      else []
  | _ => []
  end.

Definition claimed_compile (s : list ascii) : list Z :=
  flat_map claimed_slots (tokens_from s []).

(** The pieces of an input on which the compiler does skip what is
    malformed: [?], a space, two hex digits, or one character that is
    neither a hex digit nor [?], space or [-]. *)
Inductive item : Type :=
| IWildcard
| ISpace
| IHexPair (hi lo : ascii)
| IOther (c : ascii).

Definition item_ok (it : item) : bool :=
  match it with
  | IWildcard | ISpace => true
  | IHexPair hi lo => is_hex hi && is_hex lo
  | IOther c =>
      negb (is_hex c) && negb (Ascii.eqb c "?") && negb (Ascii.eqb c " ")
      && negb (Ascii.eqb c "-")
  end.

Definition item_text (it : item) : list ascii :=
  match it with
  | IWildcard => ["?"%char]
  | ISpace => [" "%char]
  | IHexPair hi lo => [hi; lo]
  | IOther c => [c]
  end.

Definition item_slots (it : item) : list Z :=
  match it with
  | IWildcard => [-1]
  | IHexPair hi lo => [16 * hex_value hi + hex_value lo]
  | ISpace | IOther _ => []
  end.

(** ** Snapshot entries *)

Definition process_named (name : list ascii) (e : PROCESSENTRY32) : bool :=
  string_view_eqb (szExeFile e) name.

Definition module_named (name : list ascii) (e : MODULEENTRY32) : bool :=
  equals_ignore_case (szModule e) name.

(** ** Matches *)

(** [P] matches [B] at offset [i]: for every [j], [P[j] = -1] or
    [B[i+j] = P[j]]. *)
Definition matches_at (B : list Byte.byte) (P : list Z) (i : Z) : Prop :=
  forall j, 0 <= j < size P ->
    exists b p,
      nth_error B (Z.to_nat (i + j)) = Some b
      /\ nth_error P (Z.to_nat j) = Some p
      /\ (p = -1 \/ byte_Z b = p).

(** The inner loop on what is left of the image and of the pattern. *)
Fixpoint match_from (bs : list Byte.byte) (ps : list Z) {struct ps}
    : outcome bool :=
  match ps with
  | [] => Returns true
  | p :: ps' =>
      match bs with
      | [] => Undefined
      | b :: bs' =>
          if negb (byte_Z b =? p) && negb (p =? -1) then Returns false
          else match_from bs' ps'
      end
  end.

(** The first offset among [i, i+1, ..., i+n-1] at which the inner loop
    answers yes. *)
Fixpoint first_match (n : nat) (B : list Byte.byte) (P : list Z) (i : Z)
    : outcome (option Z) :=
  match n with
  | O => Returns None
  | S n' =>
      found <- match_from (skipn (Z.to_nat i) B) P ;;
      if (found : bool) then Returns (Some i)
      else first_match n' B P (i + 1)
  end.

(** ** Letter case *)

Definition to_upper (c : ascii) : ascii :=
  let n := N_of_ascii c in
  if (97 <=? n)%N && (n <=? 122)%N then ascii_of_N (n - 32) else c.

(** ** Validated modules and export slots *)

(** The module at [module_base] carries both signatures: its first 0x1000
    bytes are readable, they start with "MZ", and the four bytes at
    [e_lfanew], inside the page, are "PE\0\0". *)
Definition signed_module (os : OS) (st : Session) (module_base : Z) : Prop :=
  exists headers e_lfanew,
    read_memory os st module_base 0x1000 = Some headers
    /\ firstn 2 headers = [Byte.x4d; Byte.x5a]
    /\ load 4 headers e_lfanew_offset = Returns e_lfanew
    /\ 0 <= sign_extend_i32 e_lfanew
    /\ sign_extend_i32 e_lfanew + 4 <= 0x1000
    /\ firstn 4 (skipn (Z.to_nat (sign_extend_i32 e_lfanew)) headers)
       = [Byte.x50; Byte.x45; Byte.x00; Byte.x00].

(** Name slot [i] of the local copy [dir] of an export directory that
    starts at the RVA [VirtualAddress]: the slot is below [NumberOfNames],
    it bears [name], and its ordinal leads to the function RVA [rva]. *)
Definition export_slot (dir : list Byte.byte) (VirtualAddress i : Z)
    (name : list ascii) (rva : Z) : Prop :=
  exists NumberOfNames AddressOfNames AddressOfNameOrdinals
         AddressOfFunctions name_rva ordinal,
    load 4 dir NumberOfNames_offset = Returns NumberOfNames
    /\ load 4 dir AddressOfNames_offset = Returns AddressOfNames
    /\ load 4 dir AddressOfNameOrdinals_offset
       = Returns AddressOfNameOrdinals
    /\ load 4 dir AddressOfFunctions_offset = Returns AddressOfFunctions
    /\ 0 <= i < NumberOfNames
    /\ load 4 dir (AddressOfNames - VirtualAddress + 4 * i)
       = Returns name_rva
    /\ c_string dir (name_rva - VirtualAddress) = Returns name
    /\ load 2 dir (AddressOfNameOrdinals - VirtualAddress + 2 * i)
       = Returns ordinal
    /\ load 4 dir (AddressOfFunctions - VirtualAddress + 4 * ordinal)
       = Returns rva.

(** The export data directory [(VirtualAddress, Size)] of a module, as
    [get_module_export_by_name] reads it, and the local copy of the
    directory. *)
Definition export_directory_of (os : OS) (st : Session) (module_base : Z)
    (VirtualAddress Size : Z) (dir : list Byte.byte) : Prop :=
  exists headers nt_headers,
    read_nt_headers os st module_base = Returns (Some (headers, nt_headers))
    /\ load 4 headers
         (nt_headers + OptionalHeader_offset + DataDirectory_offset
          + 8 * IMAGE_DIRECTORY_ENTRY_EXPORT)
       = Returns VirtualAddress
    /\ load 4 headers
         (nt_headers + OptionalHeader_offset + DataDirectory_offset
          + 8 * IMAGE_DIRECTORY_ENTRY_EXPORT + 4)
       = Returns Size
    /\ VirtualAddress <> 0 /\ Size <> 0
    /\ read_memory os st (u64 (module_base + VirtualAddress)) Size
       = Some dir.

(** ** Strings cut at the first NUL *)

Fixpoint until_NUL (buffer : list ascii) : list ascii :=
  match buffer with
  | [] => []
  | c :: rest => if Ascii.eqb c NUL then [] else c :: until_NUL rest
  end.

(** ** A target process

    A process "cs2.exe" (pid 1234) with two modules, the executable and
    "client.dll"; an image gives the byte at each offset from the base of
    "client.dll", of which the first [extent] are mapped. *)
Module Target.

Definition byte_of_Z (z : Z) : Byte.byte :=
  match Byte.of_N (Z.to_N z) with
  | Some b => b
  | None => Byte.x00
  end.

Fixpoint le_split (n : nat) (v : Z) : list Byte.byte :=
  match n with
  | O => []
  | S n' => byte_of_Z (v mod 256) :: le_split n' (v / 256)
  end.

Definition bytes_of_string (s : string) : list Byte.byte :=
  map byte_of_ascii (list_ascii_of_string s).

Definition image : Type := Z -> Byte.byte.

Definition zeros : image := fun _ => Byte.x00.

(** [im] with [bytes] written at offset [off]. *)
Definition poke (off : Z) (bytes : list Byte.byte) (im : image) : image :=
  fun o =>
    if (off <=? o) && (o <? off + size bytes) then
      nth (Z.to_nat (o - off)) bytes Byte.x00
    else im o.

(** The first [n] bytes of an image. *)
Definition contents (n : nat) (im : image) : list Byte.byte :=
  map (fun k => im (Z.of_nat k)) (seq 0 n).

Definition base : Z := 0x10000.
Definition pid : Z := 1234.
Definition handle : Z := 0x64.

Definition os_at (module_base extent : Z) (im : image) (open : Z) : OS :=
  {| process_list :=
       Some [ {| th32ProcessID := 4; szExeFile := str "System" |};
              {| th32ProcessID := pid; szExeFile := str "cs2.exe" |} ];
     module_list := fun p =>
       if p =? pid then
         Some [ {| modBaseAddr := 0x400000; szModule := str "cs2.exe" |};
                {| modBaseAddr := module_base;
                   szModule := str "client.dll" |} ]
       else None;
     OpenProcess := fun p => if p =? pid then open else 0;
     memory := fun h a =>
       if (h =? handle) && (module_base <=? a)
          && (a <? module_base + extent)
       then Some (im (a - module_base))
       else None |}.

Definition os (extent : Z) (im : image) (open : Z) : OS :=
  os_at base extent im open.

Definition attached : Session :=
  {| process_id := pid; process_handle := handle |}.

(** A header page: "MZ", [e_lfanew = 0x80], "PE\0\0", [SizeOfImage] and the
    export data directory. *)
Definition headers (SizeOfImage VirtualAddress Size : Z) : image :=
  poke 0 (le_split 2 IMAGE_DOS_SIGNATURE)
    (poke 0x3C (le_split 4 0x80)
      (poke 0x80 (le_split 4 IMAGE_NT_SIGNATURE)
        (poke (0x80 + 24 + 56) (le_split 4 SizeOfImage)
          (poke (0x80 + 24 + 112)
             (le_split 4 VirtualAddress ++ le_split 4 Size)
             zeros)))).

(** An image of two pages whose export directory (64 bytes at RVA 0x1000)
    names one symbol, "Sym", with the function RVA [rva]. *)
Definition image_with_export (rva : Z) : image :=
  poke (0x1000 + 24) (le_split 4 1)
    (poke (0x1000 + 28) (le_split 4 0x1028)
      (poke (0x1000 + 32) (le_split 4 0x102C)
        (poke (0x1000 + 36) (le_split 4 0x1030)
          (poke (0x1000 + 40) (le_split 4 rva)
            (poke (0x1000 + 44) (le_split 4 0x1034)
              (poke (0x1000 + 48) (le_split 2 0)
                (poke (0x1000 + 52) (bytes_of_string "Sym")
                  (headers 0x2000 0x1000 64)))))))).

(** An image of one page that validates, with [SizeOfImage = 0x1000], and
    the same image with 0xCC as its last byte. *)
Definition one_page : image := headers 0x1000 0 0.

Definition one_page_ending_in_CC : image :=
  poke 0xFFF [Byte.xcc] one_page.

(** A header page that validates and declares [SizeOfImage = 0]. *)
Definition empty_image : image := headers 0 0 0.

(** [mov rcx, [rip + 0x10]], seven bytes, to be mapped at 0x1000. *)
Definition mov_rip_0x10 : image :=
  poke 0 (map byte_of_Z [0x48; 0x8B; 0x0D; 0x10; 0x00; 0x00; 0x00]) zeros.

(** A pattern string of [n] wildcards, without spaces. *)
Definition wildcards (n : nat) : list ascii := repeat "?"%char n.

End Target.

(** * Properties *)

(** ** Sizes and machine integers *)

Lemma size_app {A : Type} (a b : list A) : size (a ++ b) = size a + size b.
Proof. unfold size. rewrite length_app. lia. Qed.

Lemma size_cons {A : Type} (x : A) (l : list A) : size (x :: l) = size l + 1.
Proof. unfold size. cbn [length]. lia. Qed.

Lemma size_nonneg {A : Type} (l : list A) : 0 <= size l.
Proof. unfold size. lia. Qed.

Lemma to_nat_size {A : Type} (l : list A) : Z.to_nat (size l) = length l.
Proof. unfold size. apply Nat2Z.id. Qed.

Lemma u32_small (x : Z) : 0 <= x < 2 ^ 32 -> u32 x = x.
Proof. intros H. unfold u32. apply Z.mod_small. exact H. Qed.

Lemma u64_small (x : Z) : 0 <= x < 2 ^ 64 -> u64 x = x.
Proof. intros H. unfold u64. apply Z.mod_small. exact H. Qed.

Lemma nth_error_middle {A : Type} (pre : list A) (x : A) (suf : list A) :
  nth_error (pre ++ x :: suf) (length pre) = Some x.
Proof.
  rewrite nth_error_app2 by lia. now rewrite Nat.sub_diag.
Qed.

Lemma skipn_middle {A : Type} (pre suf : list A) :
  skipn (length pre) (pre ++ suf) = suf.
Proof.
  rewrite skipn_app, Nat.sub_diag, skipn_all. reflexivity.
Qed.

Ltac sizes :=
  unfold size in *; repeat rewrite length_app in *; cbn [length] in *; lia.

Lemma pattern_to_bytes_loop_compile (fuel : nat) :
  forall (pre suf : list ascii) (bytes : list Z),
    (length suf < fuel)%nat ->
    size (pre ++ suf) < 2 ^ 32 ->
    pattern_to_bytes_loop fuel (pre ++ suf) (size pre) bytes
    = Returns (bytes ++ compile suf).
Proof.
  induction fuel as [fuel IH] using lt_wf_ind.
  intros pre suf bytes Hfuel Hlen.
  destruct fuel as [|fuel]; [lia|].
  cbn [pattern_to_bytes_loop].
  destruct suf as [|c rest].
  - rewrite app_nil_r, Z.ltb_irrefl. cbn [compile]. now rewrite app_nil_r.
  - replace (size pre <? size (pre ++ c :: rest)) with true
      by (symmetry; apply Z.ltb_lt; sizes).
    rewrite to_nat_size, nth_error_middle.
    assert (Hnext : u32 (size pre + 1) = size (pre ++ [c])).
    { rewrite u32_small by sizes. sizes. }
    assert (Hsplit : pre ++ c :: rest = (pre ++ [c]) ++ rest)
      by (now rewrite <- app_assoc).
    assert (Hstep : forall bytes',
      pattern_to_bytes_loop fuel (pre ++ c :: rest) (u32 (size pre + 1)) bytes'
      = Returns (bytes' ++ compile rest)).
    { intros bytes'. rewrite Hnext, Hsplit. apply IH.
      - lia.
      - cbn [length] in Hfuel. lia.
      - rewrite <- Hsplit. exact Hlen. }
    cbn [compile].
    destruct (Ascii.eqb c "?").
    { rewrite Hstep, <- app_assoc. reflexivity. }
    destruct (Ascii.eqb c " ").
    { apply Hstep. }
    destruct rest as [|d rest'].
    + replace (u32 (size pre + 1) <? size (pre ++ [c])) with false
        by (symmetry; apply Z.ltb_ge; rewrite Hnext; lia).
      rewrite Hstep. reflexivity.
    + replace (u32 (size pre + 1) <? size (pre ++ c :: d :: rest')) with true
        by (symmetry; apply Z.ltb_lt; rewrite Hnext; sizes).
      unfold chars_at. rewrite to_nat_size, skipn_middle. cbn [firstn].
      destruct (from_chars [c; d]) as [value|].
      * rewrite Hnext.
        replace (u32 (size (pre ++ [c]) + 1)) with (size (pre ++ [c; d]))
          by (rewrite u32_small by sizes; sizes).
        replace (pre ++ c :: d :: rest') with ((pre ++ [c; d]) ++ rest')
          by (now rewrite <- app_assoc).
        rewrite IH.
        -- rewrite <- app_assoc. reflexivity.
        -- lia.
        -- cbn [length] in Hfuel. lia.
        -- rewrite <- app_assoc. exact Hlen.
      * apply Hstep.
Qed.

Lemma pattern_to_bytes_compile (pattern : list ascii) :
  size pattern < 2 ^ 32 ->
  pattern_to_bytes pattern = Returns (compile pattern).
Proof.
  intros Hlen. unfold pattern_to_bytes.
  apply (pattern_to_bytes_loop_compile (S (length pattern)) [] pattern []).
  - lia.
  - exact Hlen.
Qed.

(** ** Hex digits and [from_chars] on two characters *)

Lemma hex_digit_range (c : ascii) (d : Z) :
  hex_digit c = Some d -> 0 <= d <= 15.
Proof.
  unfold hex_digit, between.
  set (n := Z.of_N (N_of_ascii c)).
  repeat match goal with
         | |- context [if ?b then _ else _] => destruct b eqn:?
         end; intros H; inversion H; subst; lia.
Qed.

Lemma is_hex_plain (c : ascii) :
  is_hex c = true ->
  Ascii.eqb c "?" = false /\ Ascii.eqb c " " = false
  /\ Ascii.eqb c "-" = false.
Proof.
  destruct c as [[] [] [] [] [] [] [] []]; vm_compute;
    intros H; try discriminate H; repeat split.
Qed.

Lemma is_hex_value (c : ascii) :
  is_hex c = true -> hex_digit c = Some (hex_value c).
Proof.
  unfold is_hex, hex_value. destruct (hex_digit c); [reflexivity | discriminate].
Qed.

Lemma hex_value_range (c : ascii) : 0 <= hex_value c <= 15.
Proof.
  unfold hex_value. destruct (hex_digit c) as [d|] eqn:E; cbn.
  - eapply hex_digit_range; eassumption.
  - lia.
Qed.

Lemma from_chars_pair (hi lo : ascii) :
  is_hex hi = true -> is_hex lo = true ->
  from_chars [hi; lo] = Some (16 * hex_value hi + hex_value lo).
Proof.
  intros Hhi Hlo.
  destruct (is_hex_plain hi Hhi) as (_ & _ & Hminus).
  pose proof (hex_value_range hi) as Rhi.
  pose proof (hex_value_range lo) as Rlo.
  unfold from_chars. rewrite Hminus. cbn [leading_digits].
  rewrite (is_hex_value hi Hhi), (is_hex_value lo Hlo).
  unfold digits_value. cbn [fold_left].
  replace (16 * (16 * 0 + hex_value hi) + hex_value lo)
    with (16 * hex_value hi + hex_value lo) by lia.
  unfold between, INT32_MIN, INT32_MAX.
  replace (- 2 ^ 31 <=? 16 * hex_value hi + hex_value lo) with true
    by (symmetry; apply Z.leb_le; lia).
  replace (16 * hex_value hi + hex_value lo <=? 2 ^ 31 - 1) with true
    by (symmetry; apply Z.leb_le; lia).
  reflexivity.
Qed.

Lemma from_chars_other (c d : ascii) :
  is_hex c = false -> Ascii.eqb c "-" = false -> from_chars [c; d] = None.
Proof.
  intros Hc Hminus. unfold from_chars. rewrite Hminus. cbn [leading_digits].
  unfold is_hex in Hc. destruct (hex_digit c); [discriminate | reflexivity].
Qed.

(** ** The compiler on well-formed pieces *)

Lemma compile_hex_pair (hi lo : ascii) (rest : list ascii) :
  is_hex hi = true -> is_hex lo = true ->
  compile (hi :: lo :: rest)
  = 16 * hex_value hi + hex_value lo :: compile rest.
Proof.
  intros Hhi Hlo. destruct (is_hex_plain hi Hhi) as (Hq & Hs & _).
  cbn [compile]. rewrite Hq, Hs, (from_chars_pair hi lo Hhi Hlo). reflexivity.
Qed.

Lemma compile_other (c : ascii) (rest : list ascii) :
  item_ok (IOther c) = true -> compile (c :: rest) = compile rest.
Proof.
  cbn [item_ok]. rewrite !andb_true_iff, !negb_true_iff.
  intros (((Hhex & Hq) & Hs) & Hminus).
  cbn [compile]. rewrite Hq, Hs.
  destruct rest as [|d rest'].
  - reflexivity.
  - now rewrite (from_chars_other c d Hhex Hminus).
Qed.

Lemma compile_token (t : token) (rest : list ascii) :
  well_formed t = true ->
  compile (token_text t ++ rest) = token_slot t :: compile rest.
Proof.
  destruct t as [|hi lo]; cbn [well_formed token_text token_slot app].
  - reflexivity.
  - rewrite andb_true_iff. intros [Hhi Hlo]. now apply compile_hex_pair.
Qed.

Lemma compile_join (ts : list token) :
  forallb well_formed ts = true -> compile (join ts) = map token_slot ts.
Proof.
  induction ts as [|t rest IH]; [reflexivity|].
  cbn [forallb]. rewrite andb_true_iff. intros [Ht Hrest].
  cbn [join map]. destruct rest as [|t' rest'].
  - rewrite <- (app_nil_r (token_text t)), (compile_token t [] Ht).
    reflexivity.
  - rewrite (compile_token t _ Ht). f_equal.
    change (compile (" "%char :: join (t' :: rest')))
      with (compile (join (t' :: rest'))).
    now apply IH.
Qed.

Lemma compile_item (it : item) (rest : list ascii) :
  item_ok it = true ->
  compile (item_text it ++ rest) = item_slots it ++ compile rest.
Proof.
  destruct it as [| |hi lo|c]; cbn [item_text item_slots app].
  - reflexivity.
  - reflexivity.
  - cbn [item_ok]. rewrite andb_true_iff. intros [Hhi Hlo].
    now apply compile_hex_pair.
  - apply compile_other.
Qed.

Lemma compile_items (its : list item) (rest : list ascii) :
  forallb item_ok its = true ->
  compile (flat_map item_text its ++ rest)
  = flat_map item_slots its ++ compile rest.
Proof.
  induction its as [|it its IH]; [reflexivity|].
  cbn [forallb flat_map]. rewrite andb_true_iff. intros [Hit Hits].
  rewrite <- !app_assoc, (compile_item it _ Hit), (IH Hits). reflexivity.
Qed.

Lemma compile_last_nibble (h : ascii) :
  is_hex h = true -> compile [h] = [].
Proof.
  intros Hh. destruct (is_hex_plain h Hh) as (Hq & Hs & _).
  cbn [compile]. now rewrite Hq, Hs.
Qed.

(** ** Pattern compilation *)

(** C2. The string "48 8B 0D ? ? ? ? 48 89 7C 24 ?" compiles to
    [0x48, 0x8B, 0x0D, -1, -1, -1, -1, 0x48, 0x89, 0x7C, 0x24, -1]; in
    general, for tokens separated by single spaces, each [?] yields the
    wildcard slot -1 and each pair of hex digits yields its byte value
    0..255, in input order. *)
Theorem pattern_to_bytes_tokens :
  pattern_to_bytes (str "48 8B 0D ? ? ? ? 48 89 7C 24 ?")
  = Returns [0x48; 0x8B; 0x0D; -1; -1; -1; -1; 0x48; 0x89; 0x7C; 0x24; -1]
  /\ forall ts : list token,
       forallb well_formed ts = true ->
       size (join ts) < 2 ^ 32 ->
       pattern_to_bytes (join ts) = Returns (map token_slot ts)
       /\ Forall (fun t =>
                    match t with
                    | Wildcard => token_slot t = -1
                    | HexPair hi lo =>
                        token_slot t = 16 * hex_value hi + hex_value lo
                        /\ 0 <= token_slot t <= 255
                    end) ts.
Proof.
  split; [vm_compute; reflexivity|].
  intros ts Hwf Hlen. split.
  - rewrite (pattern_to_bytes_compile _ Hlen), (compile_join ts Hwf).
    reflexivity.
  - apply Forall_forall. intros [|hi lo] _; cbn [token_slot].
    + reflexivity.
    + pose proof (hex_value_range hi). pose proof (hex_value_range lo). lia.
Qed.

Lemma pattern_to_bytes_tokens_witness :
  forallb well_formed [HexPair "4" "8"; Wildcard; HexPair "c" "0"] = true
  /\ size (join [HexPair "4" "8"; Wildcard; HexPair "c" "0"]) < 2 ^ 32
  /\ pattern_to_bytes (str "48 ? c0") = Returns [0x48; -1; 0xC0].
Proof.
  split; [reflexivity|]. split; [reflexivity|].
  apply (proj1 (proj2 pattern_to_bytes_tokens
                  [HexPair "4" "8"; Wildcard; HexPair "c" "0"]
                  eq_refl eq_refl)).
Defined.

(** C8, as stated, fails: the odd-length hex token "4" of "4 8B" is not
    ignored.  [std::from_chars] succeeds on the range "4 " with the value
    4, so the compiler emits the slot 4 and steps over the space. *)
Lemma pattern_to_bytes_keeps_single_nibble :
  pattern_to_bytes (str "4 8B") = Returns [4; 0x8B]
  /\ claimed_compile (str "4 8B") = [0x8B]
  /\ pattern_to_bytes (str "4 8B") <> Returns (claimed_compile (str "4 8B")).
Proof.
  split; [vm_compute; reflexivity|].
  split; [vm_compute; reflexivity|].
  vm_compute. intros H. discriminate H.
Qed.

(** C8, amended.  The compiler contributes no slot for a character that is
    neither a hex digit nor [?], space or [-], and none for a single hex
    digit at the very end of the input; spaces are skipped.  For every
    input made of [?], spaces, pairs of hex digits and such characters,
    optionally ended by one hex digit, the output has exactly the slots of
    the [?] and the hex pairs, in input order. *)
Theorem pattern_to_bytes_skips_malformed (its : list item)
    (last : list ascii) :
  forallb item_ok its = true ->
  (last = [] \/ exists h, last = [h] /\ is_hex h = true) ->
  size (flat_map item_text its ++ last) < 2 ^ 32 ->
  pattern_to_bytes (flat_map item_text its ++ last)
  = Returns (flat_map item_slots its).
Proof.
  intros Hok Hlast Hlen.
  rewrite (pattern_to_bytes_compile _ Hlen), (compile_items its last Hok).
  destruct Hlast as [-> | (h & -> & Hh)].
  - cbn [compile]. now rewrite app_nil_r.
  - rewrite (compile_last_nibble h Hh). now rewrite app_nil_r.
Qed.

Lemma pattern_to_bytes_skips_malformed_witness :
  pattern_to_bytes (str "48 zz ?  8B 7")
  = Returns [0x48; -1; 0x8B].
Proof.
  apply (pattern_to_bytes_skips_malformed
           [IHexPair "4" "8"; ISpace; IOther "z"; IOther "z"; ISpace;
            IWildcard; ISpace; ISpace; IHexPair "8" "B"; ISpace]
           ["7"%char]).
  - reflexivity.
  - right. exists "7"%char. split; reflexivity.
  - reflexivity.
Defined.

(** ** The inner loop of the scan *)

Lemma skipn_nth_error {A : Type} (l : list A) :
  forall n,
    skipn n l = match nth_error l n with
                | Some x => x :: skipn (S n) l
                | None => []
                end.
Proof.
  induction l as [|x l IH]; intros [|n]; try reflexivity.
  cbn [nth_error]. rewrite <- IH. reflexivity.
Qed.

Lemma match_loop_from (B : list Byte.byte) (i : Z) (fuel : nat) :
  forall pre suf : list Z,
    (length suf < fuel)%nat ->
    0 <= i ->
    i + size (pre ++ suf) < 2 ^ 32 ->
    match_loop fuel B (pre ++ suf) i (size pre)
    = match_from (skipn (Z.to_nat (i + size pre)) B) suf.
Proof.
  induction fuel as [|fuel IH]; intros pre suf Hfuel Hi Hlen; [lia|].
  cbn [match_loop].
  destruct suf as [|p suf'].
  - rewrite app_nil_r, Z.ltb_irrefl. reflexivity.
  - replace (size pre <? size (pre ++ p :: suf')) with true
      by (symmetry; apply Z.ltb_lt; sizes).
    rewrite (u32_small (i + size pre)) by sizes.
    rewrite to_nat_size, nth_error_middle.
    cbn [match_from].
    rewrite (skipn_nth_error B (Z.to_nat (i + size pre))).
    destruct (nth_error B (Z.to_nat (i + size pre))) as [b|]; [|reflexivity].
    destruct (negb (byte_Z b =? p) && negb (p =? -1)); [reflexivity|].
    replace (u32 (size pre + 1)) with (size (pre ++ [p]))
      by (rewrite u32_small by sizes; sizes).
    replace (pre ++ p :: suf') with ((pre ++ [p]) ++ suf')
      by (now rewrite <- app_assoc).
    rewrite IH.
    + f_equal. f_equal. sizes.
    + cbn [length] in Hfuel. lia.
    + exact Hi.
    + rewrite <- app_assoc. exact Hlen.
Qed.

Lemma match_loop_match_from (B : list Byte.byte) (P : list Z) (i : Z) :
  0 <= i -> i + size P < 2 ^ 32 ->
  match_loop (S (length P)) B P i 0
  = match_from (skipn (Z.to_nat i) B) P.
Proof.
  intros Hi Hlen.
  pose proof (match_loop_from B i (S (length P)) [] P) as H.
  cbn [app] in H. change (size (@nil Z)) with 0 in H.
  rewrite Z.add_0_r in H. apply H; auto.
Qed.

Lemma match_from_total (bs : list Byte.byte) (ps : list Z) :
  match_from bs ps <> Diverges.
Proof.
  revert bs. induction ps as [|p ps IH]; intros bs; cbn [match_from].
  - discriminate.
  - destruct bs as [|b bs]; [discriminate|].
    destruct (negb (byte_Z b =? p) && negb (p =? -1)); [discriminate|apply IH].
Qed.

Lemma match_from_false (bs : list Byte.byte) (ps : list Z) :
  match_from bs ps = Returns false -> bs <> [].
Proof.
  destruct ps as [|p ps]; cbn [match_from]; [discriminate|].
  destruct bs; [discriminate|]. intros _. discriminate.
Qed.

Lemma matches_at_nil (B : list Byte.byte) (i : Z) : matches_at B [] i.
Proof. intros j Hj. cbn in Hj. lia. Qed.

Lemma matches_at_cons (b : Byte.byte) (bs : list Byte.byte) (p : Z)
    (ps : list Z) :
  matches_at (b :: bs) (p :: ps) 0
  <-> (p = -1 \/ byte_Z b = p) /\ matches_at bs ps 0.
Proof.
  unfold matches_at. split.
  - intros H. split.
    + destruct (H 0) as (b' & p' & Hb & Hp & Hm); [sizes|].
      cbn in Hb, Hp. inversion Hb; inversion Hp; subst. exact Hm.
    + intros j Hj. destruct (H (j + 1)) as (b' & p' & Hb & Hp & Hm); [sizes|].
      exists b', p'. rewrite Z.add_0_l in *.
      replace (Z.to_nat (j + 1)) with (S (Z.to_nat j)) in Hb, Hp by lia.
      cbn [nth_error] in Hb, Hp. auto.
  - intros [Hm H] j Hj. rewrite Z.add_0_l.
    destruct (Z.eq_dec j 0) as [->|Hne].
    + exists b, p. cbn. auto.
    + destruct (H (j - 1)) as (b' & p' & Hb & Hp & Hm'); [sizes|].
      exists b', p'. rewrite Z.add_0_l in Hb.
      replace (Z.to_nat j) with (S (Z.to_nat (j - 1))) by lia.
      cbn [nth_error]. auto.
Qed.

Lemma match_from_matches (ps : list Z) :
  forall bs : list Byte.byte,
    size ps <= size bs ->
    exists found,
      match_from bs ps = Returns found
      /\ (found = true <-> matches_at bs ps 0).
Proof.
  induction ps as [|p ps IH]; intros bs Hlen.
  - exists true. split; [reflexivity|]. split; auto using matches_at_nil.
  - destruct bs as [|b bs]; [sizes|].
    cbn [match_from].
    destruct (negb (byte_Z b =? p) && negb (p =? -1)) eqn:E.
    + exists false. split; [reflexivity|]. split; [discriminate|].
      intros H. apply matches_at_cons in H. destruct H as [Hm _].
      apply andb_true_iff in E. rewrite !negb_true_iff in E.
      destruct E as [E1 E2]. apply Z.eqb_neq in E1, E2. lia.
    + destruct (IH bs) as (found & Hfound & Hiff); [sizes|].
      exists found. split; [exact Hfound|].
      rewrite Hiff, matches_at_cons.
      apply andb_false_iff in E. rewrite !negb_false_iff, !Z.eqb_eq in E.
      intuition.
Qed.

Lemma matches_at_skipn (B : list Byte.byte) (P : list Z) (i : Z) :
  0 <= i ->
  matches_at (skipn (Z.to_nat i) B) P 0 <-> matches_at B P i.
Proof.
  intros Hi. unfold matches_at.
  split; intros H j Hj; destruct (H j Hj) as (b & p & Hb & Hp & Hm);
    exists b, p; (split; [|auto]).
  - rewrite nth_error_skipn in Hb.
    replace (Z.to_nat (i + j)) with (Z.to_nat i + Z.to_nat (0 + j))%nat by lia.
    exact Hb.
  - rewrite nth_error_skipn.
    replace (Z.to_nat i + Z.to_nat (0 + j))%nat with (Z.to_nat (i + j)) by lia.
    exact Hb.
Qed.

Lemma size_skipn {A : Type} (l : list A) (i : Z) :
  0 <= i <= size l -> size (skipn (Z.to_nat i) l) = size l - i.
Proof. intros H. unfold size in *. rewrite length_skipn. lia. Qed.

(** ** The scan, when the pattern string is no longer than the image *)

Lemma scan_loop_first_match (B : list Byte.byte) (pattern : list ascii)
    (P : list Z) :
  size pattern <= size B -> size B < 2 ^ 32 -> size P <= size pattern ->
  forall (n fuel : nat) (i : Z),
    0 <= i ->
    i + Z.of_nat n = size B - size pattern ->
    (n < fuel)%nat ->
    scan_loop fuel B pattern P i = first_match n B P i.
Proof.
  intros Hpat HB HP.
  pose proof (size_nonneg pattern) as Hp0.
  assert (Hbound : u64 (size B - size pattern) = size B - size pattern)
    by (apply u64_small; lia).
  induction n as [|n IH]; intros fuel i Hi Hn Hfuel;
    (destruct fuel as [|fuel]; [lia|]); cbn [scan_loop first_match];
    rewrite Hbound.
  - replace (i <? size B - size pattern) with false
      by (symmetry; apply Z.ltb_ge; lia).
    reflexivity.
  - replace (i <? size B - size pattern) with true
      by (symmetry; apply Z.ltb_lt; lia).
    rewrite match_loop_match_from by lia.
    destruct (match_from (skipn (Z.to_nat i) B) P) as [[|]| |];
      cbn [bind]; try reflexivity.
    rewrite u32_small by lia. apply IH; lia.
Qed.

Lemma first_match_spec (B : list Byte.byte) (P : list Z) :
  forall (n : nat) (i : Z),
    0 <= i ->
    i + Z.of_nat n + size P <= size B + 1 ->
    (first_match n B P i = Returns None
     /\ forall k, i <= k < i + Z.of_nat n -> ~ matches_at B P k)
    \/ (exists k,
          first_match n B P i = Returns (Some k)
          /\ i <= k < i + Z.of_nat n
          /\ matches_at B P k
          /\ forall k', i <= k' < k -> ~ matches_at B P k').
Proof.
  pose proof (size_nonneg P) as HP0.
  induction n as [|n IH]; intros i Hi Hlen; cbn [first_match].
  - left. split; [reflexivity|]. intros k Hk. lia.
  - destruct (match_from_matches P (skipn (Z.to_nat i) B))
      as (found & Hfound & Hiff).
    { rewrite size_skipn by lia. lia. }
    rewrite Hfound. cbn [bind]. rewrite matches_at_skipn in Hiff by lia.
    destruct found.
    + right. exists i. split; [reflexivity|].
      split; [lia|]. split; [now apply Hiff|]. intros k' Hk'. lia.
    + assert (Hno : ~ matches_at B P i).
      { intros H. apply Hiff in H. discriminate H. }
      destruct (IH (i + 1)) as [[Hnone Hall] | (k & Hsome & Hk & Hm & Hmin)];
        try lia.
      * left. split; [exact Hnone|]. intros k Hk.
        destruct (Z.eq_dec k i) as [->|]; [exact Hno|]. apply Hall. lia.
      * right. exists k. split; [exact Hsome|]. split; [lia|].
        split; [exact Hm|]. intros k' Hk'.
        destruct (Z.eq_dec k' i) as [->|]; [exact Hno|]. apply Hmin. lia.
Qed.

(** What the scan computes on an image that holds the pattern string: the
    smallest offset below [|B| - |pattern|] (the length of the STRING, and
    a strict bound) at which the compiled pattern matches. *)
Lemma scan_spec (B : list Byte.byte) (pattern : list ascii) (P : list Z) :
  size pattern <= size B -> size B < 2 ^ 32 -> size P <= size pattern ->
  (scan B pattern P = Returns None
   /\ forall k, 0 <= k < size B - size pattern -> ~ matches_at B P k)
  \/ (exists k,
        scan B pattern P = Returns (Some k)
        /\ 0 <= k < size B - size pattern
        /\ matches_at B P k
        /\ forall k', 0 <= k' < k -> ~ matches_at B P k').
Proof.
  intros Hpat HB HP. unfold scan.
  rewrite (scan_loop_first_match B pattern P Hpat HB HP
             (Z.to_nat (size B - size pattern)) (S (length B)) 0)
    by (unfold size in *; lia).
  pose proof (first_match_spec B P (Z.to_nat (size B - size pattern)) 0) as H.
  rewrite Z2Nat.id in H by lia.
  apply H; lia.
Qed.

(** ** The scan, when the pattern string is longer than the image *)

Lemma scan_loop_pattern_longer (B : list Byte.byte) (pattern : list ascii)
    (P : list Z) :
  size B < size pattern -> size B + size pattern < 2 ^ 32 ->
  size P <= size pattern ->
  forall (fuel : nat) (i : Z),
    0 <= i <= size B ->
    size B < Z.of_nat fuel + i ->
    scan_loop fuel B pattern P i = Undefined
    \/ exists k, scan_loop fuel B pattern P i = Returns (Some k).
Proof.
  intros Hlong Hsum HP.
  pose proof (size_nonneg B) as HB0. pose proof (size_nonneg P) as HP0.
  assert (Hbound : u64 (size B - size pattern)
                   = 2 ^ 64 + size B - size pattern).
  { unfold u64.
    replace (size B - size pattern)
      with (2 ^ 64 + size B - size pattern + (-1) * 2 ^ 64) by lia.
    rewrite Z.mod_add by lia. apply Z.mod_small. lia. }
  induction fuel as [|fuel IH]; intros i Hi Hfuel; [lia|].
  cbn [scan_loop]. rewrite Hbound.
  replace (i <? 2 ^ 64 + size B - size pattern) with true
    by (symmetry; apply Z.ltb_lt; lia).
  rewrite match_loop_match_from by lia.
  destruct (match_from (skipn (Z.to_nat i) B) P) as [[|]| |] eqn:E;
    cbn [bind].
  - right. now exists i.
  - assert (i < size B).
    { apply match_from_false in E.
      destruct (Z.eq_dec i (size B)) as [->|]; [|lia].
      rewrite to_nat_size, skipn_all in E. now elim E. }
    rewrite u32_small by lia. apply IH; lia.
  - now left.
  - now apply match_from_total in E.
Qed.

(** For a pattern string longer than the image the unsigned bound wraps
    and the loop cannot end by it: the scan reports a match or reads past
    the image, and never answers that there is none. *)
Lemma scan_pattern_longer (B : list Byte.byte) (pattern : list ascii)
    (P : list Z) :
  size B < size pattern -> size B + size pattern < 2 ^ 32 ->
  size P <= size pattern ->
  scan B pattern P = Undefined
  \/ exists k, scan B pattern P = Returns (Some k).
Proof.
  intros Hlong Hsum HP. unfold scan.
  apply scan_loop_pattern_longer; try assumption.
  - pose proof (size_nonneg B). lia.
  - unfold size. lia.
Qed.

Lemma compile_size (s : list ascii) : size (compile s) <= size s.
Proof.
  assert (H : forall n s, (length s <= n)%nat ->
                          (length (compile s) <= length s)%nat).
  { clear s. induction n as [|n IH]; intros s Hs.
    - destruct s; [cbn; lia | cbn in Hs; lia].
    - destruct s as [|c rest]; [cbn; lia|].
      cbn [length] in Hs. cbn [compile].
      assert (Hrest : (length (compile rest) <= length rest)%nat)
        by (apply IH; lia).
      destruct (Ascii.eqb c "?"); [cbn [length]; lia|].
      destruct (Ascii.eqb c " "); [cbn [length]; lia|].
      destruct rest as [|d rest']; [cbn; lia|].
      destruct (from_chars [c; d]).
      + cbn [length] in *.
        assert ((length (compile rest') <= length rest')%nat)
          by (apply IH; lia).
        lia.
      + cbn [length] in *. lia. }
  unfold size. specialize (H (length s) s). lia.
Qed.

(** ** Reads *)

Lemma byte_Z_range (b : Byte.byte) : 0 <= byte_Z b < 256.
Proof.
  unfold byte_Z. pose proof (Byte.to_N_bounded b) as H. lia.
Qed.

Lemma le_combine_range (bs : list Byte.byte) :
  0 <= le_combine bs < 256 ^ size bs.
Proof.
  induction bs as [|b bs IH].
  - cbn. lia.
  - cbn [le_combine]. rewrite size_cons.
    pose proof (byte_Z_range b) as Hb. pose proof (size_nonneg bs) as Hs.
    rewrite Z.pow_add_r by lia. lia.
Qed.

Lemma load_range (n : nat) (buffer : list Byte.byte) (off v : Z) :
  load n buffer off = Returns v -> 0 <= v < 256 ^ Z.of_nat n.
Proof.
  unfold load.
  destruct ((0 <=? off) && (off + Z.of_nat n <=? size buffer));
    [|discriminate].
  intros H. inversion H as [Hv]. clear H Hv.
  set (bs := firstn n (skipn (Z.to_nat off) buffer)).
  pose proof (le_combine_range bs) as Hr.
  assert (Hle : size bs <= Z.of_nat n).
  { unfold size, bs. rewrite length_firstn. lia. }
  pose proof (size_nonneg bs) as Hs.
  assert (256 ^ size bs <= 256 ^ Z.of_nat n)
    by (apply Z.pow_le_mono_r; lia).
  lia.
Qed.

Lemma read_bytes_length (mem : Z -> option Byte.byte) (n : nat) :
  forall (address : Z) (bs : list Byte.byte),
    read_bytes mem address n = Some bs -> length bs = n.
Proof.
  induction n as [|n IH]; intros address bs; cbn [read_bytes].
  - intros H. inversion H. reflexivity.
  - destruct (mem address) as [b|]; [|discriminate].
    destruct (read_bytes mem (address + 1) n) as [bs'|] eqn:E; [|discriminate].
    intros H. inversion H. cbn [length]. f_equal. eapply IH. exact E.
Qed.

Lemma read_memory_size (os : OS) (st : Session) (address n : Z)
    (bs : list Byte.byte) :
  read_memory os st address n = Some bs -> length bs = Z.to_nat n.
Proof.
  unfold read_memory, ReadProcessMemory.
  destruct ((process_handle st =? 0) || (2 ^ 64 <? address + n));
    [discriminate|].
  apply read_bytes_length.
Qed.

Lemma module_image_size (os : OS) (st : Session) (module_base : Z)
    (module_data : list Byte.byte) :
  module_image os st module_base = Returns (Some module_data) ->
  size module_data < 2 ^ 32.
Proof.
  unfold module_image.
  destruct (read_nt_headers os st module_base) as [[[headers nt]|]| |];
    cbn [bind]; try discriminate.
  destruct (load 4 headers (nt + OptionalHeader_offset + SizeOfImage_offset))
    as [module_size| |] eqn:E; cbn [bind]; try discriminate.
  intros H. inversion H as [Hread]. clear H.
  apply read_memory_size in Hread. apply load_range in E.
  unfold size. rewrite Hread. change (256 ^ Z.of_nat 4) with (2 ^ 32) in E.
  lia.
Qed.

(** ** The scan of [find_pattern] *)

Lemma compile_wildcards (n : nat) :
  compile (Target.wildcards n) = repeat (-1) n.
Proof.
  induction n as [|n IH]; [reflexivity|].
  unfold Target.wildcards in *. cbn [repeat compile].
  change (Ascii.eqb "?" "?") with true. cbv iota. now rewrite IH.
Qed.

Lemma match_from_wildcards (n : nat) :
  forall bs : list Byte.byte,
    (length bs < n)%nat -> match_from bs (repeat (-1) n) = Undefined.
Proof.
  induction n as [|n IH]; intros bs Hlen; [lia|].
  cbn [repeat match_from]. destruct bs as [|b bs]; [reflexivity|].
  change (-1 =? -1) with true. cbn [negb]. rewrite andb_false_r.
  apply IH. cbn [length] in Hlen. lia.
Qed.

(** No match below the bound: the scan answers that there is none. *)
Lemma scan_none (B : list Byte.byte) (pattern : list ascii) (P : list Z) :
  size pattern <= size B -> size B < 2 ^ 32 -> size P <= size pattern ->
  (forall k, 0 <= k < size B - size pattern -> ~ matches_at B P k) ->
  scan B pattern P = Returns None.
Proof.
  intros Hpat HB HP Hnone.
  destruct (scan_spec B pattern P Hpat HB HP)
    as [[H _] | (k & _ & Hk & Hm & _)]; [exact H|].
  now elim (Hnone k Hk).
Qed.

Lemma byte_absent (B : list Byte.byte) (p : Z) (n : nat) :
  p <> -1 ->
  forallb (fun b => negb (byte_Z b =? p)) (firstn n B) = true ->
  forall k, 0 <= k < Z.of_nat n -> ~ matches_at B [p] k.
Proof.
  intros Hp Hall k Hk Hm.
  destruct (Hm 0) as (b & p' & Hb & Hp' & Hor); [cbn; lia|].
  cbn in Hp'. inversion Hp'; subst p'. clear Hp'.
  destruct Hor as [Hor | Hor]; [now elim Hp|].
  rewrite Z.add_0_r in Hb.
  assert (Hin : In b (firstn n B)).
  { apply nth_error_In with (n := Z.to_nat k).
    rewrite nth_error_firstn.
    replace (Z.to_nat k <? n)%nat with true; [exact Hb|].
    symmetry. apply Nat.ltb_lt. lia. }
  rewrite forallb_forall in Hall. specialize (Hall b Hin).
  apply negb_true_iff, Z.eqb_neq in Hall. now elim Hall.
Qed.

(** A pattern of wildcards longer than the image: the bound wraps, the
    loop is entered at offset 0 and the inner loop runs off the image. *)
Lemma scan_wildcards_longer (B : list Byte.byte) (n : nat) :
  (length B < n)%nat -> Z.of_nat n < 2 ^ 32 ->
  scan B (Target.wildcards n) (repeat (-1) n) = Undefined.
Proof.
  intros Hlong Hn. unfold scan. cbn [scan_loop].
  assert (Hpattern : size (Target.wildcards n) = Z.of_nat n)
    by (unfold size, Target.wildcards; now rewrite repeat_length).
  assert (Hbound : u64 (size B - size (Target.wildcards n))
                   = 2 ^ 64 + size B - Z.of_nat n).
  { rewrite Hpattern. unfold u64, size.
    replace (Z.of_nat (length B) - Z.of_nat n)
      with (2 ^ 64 + Z.of_nat (length B) - Z.of_nat n + (-1) * 2 ^ 64)
      by lia.
    rewrite Z.mod_add by lia. apply Z.mod_small. lia. }
  rewrite Hbound.
  replace (0 <? 2 ^ 64 + size B - Z.of_nat n) with true
    by (symmetry; apply Z.ltb_lt; unfold size; lia).
  rewrite match_loop_match_from
    by (unfold size; rewrite ?repeat_length; lia).
  change (skipn (Z.to_nat 0) B) with B.
  now rewrite match_from_wildcards.
Qed.

Lemma find_pattern_scan (os : OS) (st : Session)
    (module_name pattern : list ascii) (module_base : Z)
    (module_data : list Byte.byte) :
  get_module_base_by_name os st module_name = Returns (Some module_base) ->
  module_image os st module_base = Returns (Some module_data) ->
  size pattern < 2 ^ 32 ->
  find_pattern os st module_name pattern
  = found <- scan module_data pattern (compile pattern) ;;
    match found with
    | Some i => Returns (Some (u64 (module_base + i)))
    | None => Returns None
    end.
Proof.
  intros Hbase Himage Hlen. unfold find_pattern.
  rewrite Hbase. cbn [bind]. rewrite Himage. cbn [bind].
  rewrite (pattern_to_bytes_compile pattern Hlen). reflexivity.
Qed.

Lemma contents_size (n : nat) (im : Target.image) :
  size (Target.contents n im) = Z.of_nat n.
Proof.
  unfold size, Target.contents. now rewrite length_map, length_seq.
Qed.

Lemma client_dll_base (extent : Z) (im : Target.image) (open : Z) :
  get_module_base_by_name (Target.os extent im open) Target.attached
    (str "client.dll")
  = Returns (Some Target.base).
Proof. reflexivity. Qed.

Lemma one_page_ending_in_CC_image :
  module_image (Target.os 0x1000 Target.one_page_ending_in_CC Target.handle)
    Target.attached Target.base
  = Returns (Some (Target.contents 0x1000 Target.one_page_ending_in_CC)).
Proof. vm_compute. reflexivity. Qed.

Lemma one_page_ending_in_CC_bytes :
  nth_error (Target.contents 0x1000 Target.one_page_ending_in_CC) 0xFFF
  = Some Byte.xcc
  /\ forallb (fun b => negb (byte_Z b =? 0xCC))
       (firstn 0xFFE (Target.contents 0x1000 Target.one_page_ending_in_CC))
     = true.
Proof. split; vm_compute; reflexivity. Qed.

(** C1, the code at a failing input.  The module is one page that
    validates and ends in the byte 0xCC, and the pattern is "CC".  The
    compiled pattern [0xCC] matches at offset 0xFFF, which is
    [|B| - |P|]; [find_pattern] answers that there is no match, because
    its loop stops before [|B| - 2], 2 being the length of the pattern
    string. *)
Theorem find_pattern_misses_last_offset :
  let B := Target.contents 0x1000 Target.one_page_ending_in_CC in
  let os := Target.os 0x1000 Target.one_page_ending_in_CC Target.handle in
  module_image os Target.attached Target.base = Returns (Some B)
  /\ pattern_to_bytes (str "CC") = Returns [0xCC]
  /\ 0 <= 0xFFF <= size B - size [0xCC]
  /\ matches_at B [0xCC] 0xFFF
  /\ scan B (str "CC") [0xCC] = Returns None
  /\ find_pattern os Target.attached (str "client.dll") (str "CC")
     = Returns None.
Proof.
  cbv zeta.
  pose proof one_page_ending_in_CC_image as Himage.
  pose proof one_page_ending_in_CC_bytes as (Hlast & Hnone).
  pose proof (contents_size 0x1000 Target.one_page_ending_in_CC) as Hsize.
  pose proof (client_dll_base 0x1000 Target.one_page_ending_in_CC
                Target.handle) as Hbase.
  revert Himage Hlast Hnone Hsize Hbase.
  generalize (Target.contents 0x1000 Target.one_page_ending_in_CC).
  generalize (Target.os 0x1000 Target.one_page_ending_in_CC Target.handle).
  intros os B Himage Hlast Hnone Hsize Hbase.
  change (Z.of_nat 0x1000) with 0x1000 in Hsize.
  assert (Hscan : scan B (str "CC") [0xCC] = Returns None).
  { apply scan_none.
    - rewrite Hsize. vm_compute. discriminate.
    - rewrite Hsize. reflexivity.
    - vm_compute. discriminate.
    - rewrite Hsize. change (4096 - size (str "CC")) with (Z.of_nat 0xFFE).
      apply byte_absent; [discriminate | exact Hnone]. }
  split; [exact Himage|]. split; [reflexivity|].
  split; [rewrite Hsize; vm_compute; split; discriminate|].
  split.
  - intros j Hj. change (size [0xCC]) with 1 in Hj.
    assert (j = 0) as -> by lia.
    exists Byte.xcc, 0xCC. split; [exact Hlast|].
    split; [reflexivity|]. right. reflexivity.
  - split; [exact Hscan|].
    rewrite (find_pattern_scan os Target.attached (str "client.dll")
               (str "CC") Target.base B Hbase Himage eq_refl).
    change (compile (str "CC")) with [0xCC]. rewrite Hscan. reflexivity.
Qed.

Lemma find_pattern_wildcards_longer (os : OS) (st : Session)
    (module_name : list ascii) (module_base : Z)
    (module_data : list Byte.byte) (n : nat) :
  get_module_base_by_name os st module_name = Returns (Some module_base) ->
  module_image os st module_base = Returns (Some module_data) ->
  size module_data < Z.of_nat n -> Z.of_nat n < 2 ^ 32 ->
  find_pattern os st module_name (Target.wildcards n) = Undefined.
Proof.
  intros Hbase Himage Hlong Hn.
  assert (Hpattern : size (Target.wildcards n) = Z.of_nat n)
    by (unfold size, Target.wildcards; now rewrite repeat_length).
  rewrite (find_pattern_scan os st module_name (Target.wildcards n)
             module_base module_data Hbase Himage)
    by (rewrite Hpattern; exact Hn).
  rewrite compile_wildcards, scan_wildcards_longer; [reflexivity| |exact Hn].
  unfold size in Hlong. lia.
Qed.

Lemma one_page_image :
  module_image (Target.os 0x1000 Target.one_page Target.handle)
    Target.attached Target.base
  = Returns (Some (Target.contents 0x1000 Target.one_page)).
Proof. vm_compute. reflexivity. Qed.

(** C6, the code at a failing input.  The module is one page that
    validates ([SizeOfImage = 0x1000]) and the pattern is 0x1001 wildcards.
    [module_size - pattern.size()] wraps to [2^64 - 1], the loop is
    entered, and the inner loop reads [module_data[0x1000]], one byte past
    the local copy of the image. *)
Theorem find_pattern_reads_past_image :
  let B := Target.contents 0x1000 Target.one_page in
  let os := Target.os 0x1000 Target.one_page Target.handle in
  let pattern := Target.wildcards 0x1001 in
  module_image os Target.attached Target.base = Returns (Some B)
  /\ size B = 0x1000
  /\ size pattern = 0x1001
  /\ find_pattern os Target.attached (str "client.dll") pattern = Undefined.
Proof.
  cbv zeta.
  pose proof one_page_image as Himage.
  pose proof (contents_size 0x1000 Target.one_page) as Hsize.
  pose proof (client_dll_base 0x1000 Target.one_page Target.handle) as Hbase.
  revert Himage Hsize Hbase.
  generalize (Target.contents 0x1000 Target.one_page).
  generalize (Target.os 0x1000 Target.one_page Target.handle).
  intros os B Himage Hsize Hbase.
  change (Z.of_nat 0x1000) with 0x1000 in Hsize.
  split; [exact Himage|]. split; [exact Hsize|]. split.
  - unfold size, Target.wildcards. now rewrite repeat_length.
  - apply (find_pattern_wildcards_longer os Target.attached
             (str "client.dll") Target.base B 0x1001 Hbase Himage).
    + rewrite Hsize. reflexivity.
    + reflexivity.
Qed.

(** C10, as stated, fails: a header page that validates and declares
    [SizeOfImage = 0] gives an image that reads successfully (no byte is
    read), and the loop [for (i = 0; i < 0 - 0; ...)] is never entered. *)
Lemma find_pattern_empty_pattern_empty_image :
  let os := Target.os 0x1000 Target.empty_image Target.handle in
  get_module_base_by_name os Target.attached (str "client.dll")
  = Returns (Some Target.base)
  /\ module_image os Target.attached Target.base = Returns (Some [])
  /\ find_pattern os Target.attached (str "client.dll") [] = Returns None.
Proof.
  cbv zeta.
  assert (Himage : module_image
                     (Target.os 0x1000 Target.empty_image Target.handle)
                     Target.attached Target.base
                   = Returns (Some [])) by (vm_compute; reflexivity).
  split; [reflexivity|]. split; [exact Himage|].
  unfold find_pattern. rewrite client_dll_base. cbn [bind].
  rewrite Himage. reflexivity.
Qed.

(** C10, amended.  For the empty pattern string, [find_pattern] on any
    module whose headers validate, whose image reads successfully and
    whose [SizeOfImage] is not zero returns [module_base + 0]. *)
Theorem find_pattern_empty_pattern (os : OS) (st : Session)
    (module_name : list ascii) (module_base : Z)
    (module_data : list Byte.byte) :
  get_module_base_by_name os st module_name = Returns (Some module_base) ->
  module_image os st module_base = Returns (Some module_data) ->
  0 < size module_data ->
  pattern_to_bytes [] = Returns []
  /\ find_pattern os st module_name []
     = Returns (Some (u64 (module_base + 0))).
Proof.
  intros Hbase Himage Hsize. split; [reflexivity|].
  pose proof (module_image_size _ _ _ _ Himage) as Hlt.
  unfold find_pattern. rewrite Hbase. cbn [bind]. rewrite Himage.
  cbn [bind]. change (pattern_to_bytes []) with (Returns (@nil Z)).
  cbn [bind]. unfold scan. cbn [scan_loop].
  change (size (@nil ascii)) with 0. rewrite Z.sub_0_r.
  rewrite u64_small by lia.
  replace (0 <? size module_data) with true
    by (symmetry; apply Z.ltb_lt; lia).
  reflexivity.
Qed.

Lemma find_pattern_empty_pattern_witness :
  find_pattern (Target.os 0x1000 Target.one_page Target.handle)
    Target.attached (str "client.dll") []
  = Returns (Some Target.base).
Proof.
  apply (proj2 (find_pattern_empty_pattern
                  (Target.os 0x1000 Target.one_page Target.handle)
                  Target.attached (str "client.dll") Target.base
                  (Target.contents 0x1000 Target.one_page)
                  (client_dll_base _ _ _)
                  one_page_image
                  ltac:(vm_compute; reflexivity))).
Defined.

(** ** Snapshot iteration *)

Lemma get_process_id_by_name_loop_find (name : list ascii)
    (l : list PROCESSENTRY32) (fuel : nat) :
  forall (k : nat) (entry : PROCESSENTRY32),
    (length l - k < fuel)%nat ->
    get_process_id_by_name_loop fuel
      {| Toolhelp.entries := l; Toolhelp.cursor := k |} entry name
    = Returns (option_map th32ProcessID
                 (find (process_named name) (skipn k l))).
Proof.
  induction fuel as [|fuel IH]; intros k entry Hfuel.
  - lia.
  - cbn [get_process_id_by_name_loop]. unfold Process32Next, Toolhelp.Next.
    cbn [Toolhelp.entries Toolhelp.cursor].
    rewrite (skipn_nth_error l k).
    destruct (nth_error l k) as [e|] eqn:E; [|reflexivity].
    assert (k < length l)%nat by (apply nth_error_Some; congruence).
    cbn [find]. unfold process_named at 1.
    destruct (string_view_eqb (szExeFile e) name); [reflexivity|].
    apply IH. lia.
Qed.

Lemma get_module_base_by_name_loop_find (name : list ascii)
    (l : list MODULEENTRY32) (fuel : nat) :
  forall (k : nat) (entry : MODULEENTRY32),
    (length l - k < fuel)%nat ->
    get_module_base_by_name_loop fuel
      {| Toolhelp.entries := l; Toolhelp.cursor := k |} entry name
    = Returns (option_map modBaseAddr
                 (find (module_named name) (skipn k l))).
Proof.
  induction fuel as [|fuel IH]; intros k entry Hfuel.
  - lia.
  - cbn [get_module_base_by_name_loop]. unfold Module32Next, Toolhelp.Next.
    cbn [Toolhelp.entries Toolhelp.cursor].
    rewrite (skipn_nth_error l k).
    destruct (nth_error l k) as [e|] eqn:E; [|reflexivity].
    assert (k < length l)%nat by (apply nth_error_Some; congruence).
    cbn [find]. unfold module_named at 1.
    destruct (equals_ignore_case (szModule e) name); [reflexivity|].
    apply IH. lia.
Qed.

Lemma loaded_modules_loop_names (l : list MODULEENTRY32) (fuel : nat) :
  forall (k : nat) (entry : MODULEENTRY32) (names : list (list ascii)),
    (length l - k < fuel)%nat ->
    loaded_modules_loop fuel
      {| Toolhelp.entries := l; Toolhelp.cursor := k |} entry names
    = Returns (names ++ map szModule (skipn k l)).
Proof.
  induction fuel as [|fuel IH]; intros k entry names Hfuel.
  - lia.
  - cbn [loaded_modules_loop]. unfold Module32Next, Toolhelp.Next.
    cbn [Toolhelp.entries Toolhelp.cursor].
    rewrite (skipn_nth_error l k).
    destruct (nth_error l k) as [e|] eqn:E.
    + assert (k < length l)%nat by (apply nth_error_Some; congruence).
      rewrite IH by lia. cbn [map]. rewrite <- app_assoc. reflexivity.
    + cbn [map]. now rewrite app_nil_r.
Qed.

(** The three lookups on any snapshot: the first entry takes no part. *)
Lemma get_process_id_by_name_tail (os : OS) (name : list ascii)
    (l : list PROCESSENTRY32) :
  process_list os = Some l ->
  get_process_id_by_name os name
  = Returns (option_map th32ProcessID (find (process_named name) (tl l))).
Proof.
  intros Hl. unfold get_process_id_by_name. rewrite Hl.
  unfold Process32First, Toolhelp.First, Toolhelp.create.
  cbn [Toolhelp.entries].
  destruct l as [|first rest].
  - reflexivity.
  - rewrite get_process_id_by_name_loop_find by (cbn [length]; lia).
    reflexivity.
Qed.

Lemma get_module_base_by_name_tail (os : OS) (st : Session)
    (name : list ascii) (l : list MODULEENTRY32) :
  module_list os (process_id st) = Some l ->
  get_module_base_by_name os st name
  = Returns (option_map modBaseAddr (find (module_named name) (tl l))).
Proof.
  intros Hl. unfold get_module_base_by_name. rewrite Hl.
  unfold Module32First, Toolhelp.First, Toolhelp.create.
  cbn [Toolhelp.entries].
  destruct l as [|first rest].
  - reflexivity.
  - rewrite get_module_base_by_name_loop_find by (cbn [length]; lia).
    reflexivity.
Qed.

Lemma loaded_modules_tail (os : OS) (st : Session)
    (l : list MODULEENTRY32) :
  module_list os (process_id st) = Some l ->
  loaded_modules os st = Returns (Some (map szModule (tl l))).
Proof.
  intros Hl. unfold loaded_modules. rewrite Hl.
  unfold Module32First, Toolhelp.First, Toolhelp.create.
  cbn [Toolhelp.entries].
  destruct l as [|first rest].
  - reflexivity.
  - rewrite loaded_modules_loop_names by (cbn [length]; lia).
    reflexivity.
Qed.

Lemma find_none_all {A : Type} (f : A -> bool) (l : list A) :
  (forall x, In x l -> f x = false) -> find f l = None.
Proof.
  induction l as [|x l IH]; intros H; [reflexivity|].
  cbn [find]. rewrite (H x) by (left; reflexivity).
  apply IH. intros y Hy. apply H. right. exact Hy.
Qed.

(** C3. In each of the three snapshot lookups the loop starts with the
    First call and tests only what the Next calls give, so the first entry
    of the snapshot is dropped: the answer is computed from the entries
    after the first, and a name that only the first entry bears is never
    returned. *)
Theorem snapshot_lookups_drop_first_entry (os : OS) (st : Session) :
  (forall first rest name,
      process_list os = Some (first :: rest) ->
      get_process_id_by_name os name
      = Returns (option_map th32ProcessID (find (process_named name) rest))
      /\ ((forall e, In e rest -> process_named name e = false) ->
          get_process_id_by_name os name = Returns None))
  /\ (forall first rest name,
      module_list os (process_id st) = Some (first :: rest) ->
      get_module_base_by_name os st name
      = Returns (option_map modBaseAddr (find (module_named name) rest))
      /\ ((forall e, In e rest -> module_named name e = false) ->
          get_module_base_by_name os st name = Returns None))
  /\ (forall first rest,
      module_list os (process_id st) = Some (first :: rest) ->
      loaded_modules os st = Returns (Some (map szModule rest))).
Proof.
  split; [|split].
  - intros first rest name Hl.
    rewrite (get_process_id_by_name_tail os name _ Hl). cbn [tl].
    split; [reflexivity|]. intros Hnone.
    now rewrite (find_none_all _ _ Hnone).
  - intros first rest name Hl.
    rewrite (get_module_base_by_name_tail os st name _ Hl). cbn [tl].
    split; [reflexivity|]. intros Hnone.
    now rewrite (find_none_all _ _ Hnone).
  - intros first rest Hl.
    now rewrite (loaded_modules_tail os st _ Hl).
Qed.

Lemma snapshot_lookups_drop_first_entry_witness :
  let os := Target.os 0 Target.zeros Target.handle in
  process_named (str "System")
    {| th32ProcessID := 4; szExeFile := str "System" |} = true
  /\ get_process_id_by_name os (str "System") = Returns None
  /\ module_named (str "CS2.EXE")
       {| modBaseAddr := 0x400000; szModule := str "cs2.exe" |} = true
  /\ get_module_base_by_name os Target.attached (str "CS2.EXE")
     = Returns None
  /\ loaded_modules os Target.attached = Returns (Some [str "client.dll"]).
Proof.
  cbv zeta.
  pose proof (snapshot_lookups_drop_first_entry
                (Target.os 0 Target.zeros Target.handle) Target.attached)
    as (Hp & Hm & Hl).
  split; [reflexivity|]. split.
  - apply (Hp _ _ (str "System") eq_refl).
    intros e [<- | []]. reflexivity.
  - split; [reflexivity|]. split.
    + apply (Hm _ _ (str "CS2.EXE") eq_refl).
      intros e [<- | []]. reflexivity.
    + apply (Hl _ _ eq_refl).
Defined.

(** ** [attach] *)

(** C4, as stated, fails: when the process is found and [OpenProcess]
    gives a null handle, [attach] returns false after it has stored the
    process id. *)
Lemma attach_open_failure_keeps_pid :
  attach (Target.os 0 Target.zeros 0) uninitialized (str "cs2.exe")
  = Returns (false, {| process_id := 1234; process_handle := 0 |})
  /\ {| process_id := 1234; process_handle := 0 |} <> uninitialized.
Proof.
  split; [vm_compute; reflexivity|]. intros H. discriminate H.
Qed.

(** C4, amended.  When [attach] returns false because no process with
    that image name is found, the session is left unchanged; when it
    returns false because opening the process yields a null handle, the
    process handle is null and the stored PID is the PID that was found. *)
Theorem attach_failure (os : OS) (st st' : Session)
    (process_name : list ascii) :
  attach os st process_name = Returns (false, st') ->
  (get_process_id_by_name os process_name = Returns None /\ st' = st)
  \/ (exists id,
        get_process_id_by_name os process_name = Returns (Some id)
        /\ OpenProcess os id = 0
        /\ st' = {| process_id := id; process_handle := 0 |}).
Proof.
  unfold attach.
  destruct (get_process_id_by_name os process_name) as [[id|]| |];
    cbn [bind process_id process_handle]; try discriminate.
  - intros H. inversion H as [[Hnull Hst]]. right. exists id.
    apply negb_false_iff, Z.eqb_eq in Hnull.
    split; [reflexivity|]. split; [exact Hnull|]. now rewrite Hnull.
  - intros H. inversion H. left. split; reflexivity.
Qed.

Lemma attach_failure_witness :
  let os := Target.os 0 Target.zeros 0 in
  attach os uninitialized (str "System") = Returns (false, uninitialized)
  /\ (get_process_id_by_name os (str "System") = Returns None
      /\ uninitialized = uninitialized
      \/ exists id,
           get_process_id_by_name os (str "System") = Returns (Some id)
           /\ OpenProcess os id = 0
           /\ uninitialized = {| process_id := id; process_handle := 0 |}).
Proof.
  cbv zeta. split; [reflexivity|].
  apply (attach_failure (Target.os 0 Target.zeros 0) uninitialized
           uninitialized (str "System")).
  reflexivity.
Defined.

(** ** [get_module_export_by_name] *)

(** What lines 187-189 test: the address is dropped exactly when it lies in
    the CLOSED interval from [module_base + VA] to
    [module_base + VA + Size]. *)
Lemma matched_export_spec (module_base VirtualAddress Size rva : Z) :
  0 <= module_base -> 0 <= VirtualAddress -> 0 <= Size -> 0 <= rva ->
  module_base + VirtualAddress + Size < 2 ^ 64 ->
  module_base + rva < 2 ^ 64 ->
  (module_base + VirtualAddress <= module_base + rva
                                <= module_base + VirtualAddress + Size ->
   matched_export module_base VirtualAddress Size rva = None)
  /\ (~ (module_base + VirtualAddress <= module_base + rva
                                      <= module_base + VirtualAddress + Size) ->
      matched_export module_base VirtualAddress Size rva
      = Some (module_base + rva)).
Proof.
  intros Hb Hva Hsz Hrva Hend Hfn. unfold matched_export.
  rewrite (u64_small (module_base + rva)) by lia.
  rewrite (u64_small (module_base + VirtualAddress)) by lia.
  rewrite (u64_small (module_base + VirtualAddress + Size)) by lia.
  split; intros H.
  - replace (module_base + VirtualAddress <=? module_base + rva) with true
      by (symmetry; apply Z.leb_le; lia).
    replace (module_base + rva <=? module_base + VirtualAddress + Size)
      with true by (symmetry; apply Z.leb_le; lia).
    reflexivity.
  - destruct (module_base + VirtualAddress <=? module_base + rva) eqn:E1;
      [|reflexivity].
    destruct (module_base + rva <=? module_base + VirtualAddress + Size)
      eqn:E2; [|reflexivity].
    apply Z.leb_le in E1, E2. lia.
Qed.

(** C5, the code at a failing input.  The export directory of the module
    is the 64 bytes at RVA 0x1000 and the symbol "Sym" has the function
    RVA 0x1040, the first byte after the directory.  Its address is not in
    [module_base+VA, module_base+VA+Size), yet line 188 compares with [<=]
    and the symbol is dropped as forwarded.  One byte further (RVA 0x1041)
    the address is returned. *)
Theorem export_at_directory_end_is_dropped :
  let VA := 0x1000 in
  let Size := 64 in
  let os :=
    Target.os 0x2000 (Target.image_with_export (VA + Size)) Target.handle in
  let os' :=
    Target.os 0x2000 (Target.image_with_export (VA + Size + 1))
      Target.handle in
  ~ (Target.base + VA <= Target.base + (VA + Size) < Target.base + VA + Size)
  /\ matched_export Target.base VA Size (VA + Size) = None
  /\ get_module_export_by_name os Target.attached Target.base (str "Sym")
     = Returns None
  /\ get_module_export_by_name os' Target.attached Target.base (str "Sym")
     = Returns (Some (Target.base + (VA + Size + 1))).
Proof.
  cbv zeta. split; [lia|].
  split; [reflexivity|].
  split; vm_compute; reflexivity.
Qed.

(** ** [read_string] *)

Lemma find_char_split (c : ascii) (buffer : list ascii) :
  match find_char c buffer with
  | Some it =>
      ~ In c (firstn it buffer)
      /\ exists rest, buffer = firstn it buffer ++ c :: rest
  | None => ~ In c buffer
  end.
Proof.
  induction buffer as [|x buffer IH]; cbn [find_char].
  - intros [].
  - destruct (Ascii.eqb_spec x c) as [->|Hne].
    + cbn [firstn]. split; [intros []|]. now exists buffer.
    + destruct (find_char c buffer) as [it|]; cbn [option_map].
      * destruct IH as (Hnot & rest & Hrest). cbn [firstn]. split.
        -- intros [Heq | Hin]; [now apply Hne | now apply Hnot].
        -- exists rest. cbn [app]. now rewrite <- Hrest.
      * intros [Heq | Hin]; [now apply Hne | now apply IH].
Qed.

(** C7. [read_string(addr, max_len)] reads [max_len] bytes at [addr],
    cuts the result at the first NUL byte and returns it; whenever the
    memory read fails it returns the empty string. *)
Theorem read_string_spec (os : OS) (st : Session) (address length : Z) :
  (read_memory os st address length = None ->
   read_string os st address length = [])
  /\ (forall bytes,
        read_memory os st address length = Some bytes ->
        size bytes = Z.max 0 length
        /\ ~ In NUL (read_string os st address length)
        /\ (map ascii_of_byte bytes = read_string os st address length
            \/ exists rest,
                 map ascii_of_byte bytes
                 = read_string os st address length ++ NUL :: rest)).
Proof.
  unfold read_string. split.
  - intros ->. reflexivity.
  - intros bytes Hread. rewrite Hread. split.
    + apply read_memory_size in Hread. unfold size. rewrite Hread. lia.
    + pose proof (find_char_split NUL (map ascii_of_byte bytes)) as H.
      destruct (find_char NUL (map ascii_of_byte bytes)) as [it|].
      * destruct H as (Hnot & rest & Hrest). split; [exact Hnot|].
        right. exists rest. exact Hrest.
      * split; [exact H|]. now left.
Qed.

Lemma read_string_spec_witness :
  let os := Target.os 0x1000 Target.one_page Target.handle in
  read_string os Target.attached Target.base 16 = str "MZ"
  /\ read_string os Target.attached (Target.base + 0xFF8) 16 = []
  /\ read_string os Target.attached Target.base 2 = str "MZ"
  /\ ~ In NUL (read_string os Target.attached Target.base 16).
Proof.
  cbv zeta.
  split; [vm_compute; reflexivity|].
  split.
  - apply (proj1 (read_string_spec _ _ _ _)). vm_compute. reflexivity.
  - split; [vm_compute; reflexivity|].
    eapply (proj2 (read_string_spec _ _ _ _)). vm_compute. reflexivity.
Defined.

(** ** [resolve_rip_relative_address] *)

(** C9. [resolve_rip_relative(a)] returns
    [a + 7 + sign_extend_i32(read4(a+3))], as a 64-bit address, whenever
    the 4-byte read at [a+3] succeeds, and nothing when it fails; with the
    displacement bytes 0x10 0x00 0x00 0x00 at offset 3 of the address
    0x1000 it returns 0x1017. *)
Theorem resolve_rip_relative_address_spec (os : OS) (st : Session) :
  (forall a,
      read_memory os st (u64 (a + 3)) 4 = None ->
      resolve_rip_relative_address os st a = None)
  /\ (forall a bytes,
        read_memory os st (u64 (a + 3)) 4 = Some bytes ->
        let read4 := le_combine bytes in
        resolve_rip_relative_address os st a
        = Some (u64 (a + 7 + sign_extend_i32 read4))
        /\ (0 <= a + 7 + sign_extend_i32 read4 < 2 ^ 64 ->
            resolve_rip_relative_address os st a
            = Some (a + 7 + sign_extend_i32 read4)))
  /\ (read_memory os st (0x1000 + 3) 4
      = Some [Byte.x10; Byte.x00; Byte.x00; Byte.x00] ->
      resolve_rip_relative_address os st 0x1000 = Some 0x1017).
Proof.
  unfold resolve_rip_relative_address. split; [|split].
  - intros a ->. reflexivity.
  - intros a bytes ->. cbv zeta.
    replace (a + sign_extend_i32 (le_combine bytes) + 7)
      with (a + 7 + sign_extend_i32 (le_combine bytes)) by lia.
    split; [reflexivity|]. intros Hrange. now rewrite u64_small.
  - intros Hread. change (u64 (0x1000 + 3)) with (0x1000 + 3).
    rewrite Hread. reflexivity.
Qed.

Lemma resolve_rip_relative_address_spec_witness :
  let os := Target.os_at 0x1000 7 Target.mov_rip_0x10 Target.handle in
  resolve_rip_relative_address os Target.attached 0x1000 = Some 0x1017
  /\ resolve_rip_relative_address os Target.attached 0x1004 = None
  /\ resolve_rip_relative_address os Target.attached 0xFFF
     = Some (0xFFF + 7 + 0x100D).
Proof.
  cbv zeta.
  pose proof (resolve_rip_relative_address_spec
                (Target.os_at 0x1000 7 Target.mov_rip_0x10 Target.handle)
                Target.attached) as (Hfail & Hok & Hexample).
  split; [|split].
  - apply Hexample. reflexivity.
  - apply Hfail. reflexivity.
  - apply (proj2 (Hok 0xFFF [Byte.x0d; Byte.x10; Byte.x00; Byte.x00]
                    eq_refl)).
    vm_compute. split; [discriminate | reflexivity].
Defined.

(** The call site of main.cpp: the address the pattern is found at is
    resolved, and every absence becomes 0. *)
Lemma get_entity_list_resolves (os : OS) (st : Session) (address : Z) :
  find_pattern os st (str "client.dll")
    (str "48 8B 0D ? ? ? ? 48 89 7C 24 ? 8B FA C1 EB")
  = Returns (Some address) ->
  get_entity_list os st
  = Returns (value_or (resolve_rip_relative_address os st address) 0).
Proof.
  intros Hfound. unfold get_entity_list. rewrite Hfound. reflexivity.
Qed.

(** ** The fuel of the export walk *)

Lemma bind_total {A B : Type} (m : outcome A) (k : A -> outcome B) :
  m <> Diverges ->
  (forall a, m = Returns a -> k a <> Diverges) ->
  bind m k <> Diverges.
Proof.
  intros Hm Hk. destruct m as [a| |]; cbn [bind].
  - now apply Hk.
  - discriminate.
  - now elim Hm.
Qed.

Lemma load_total (n : nat) (buffer : list Byte.byte) (off : Z) :
  load n buffer off <> Diverges.
Proof.
  unfold load.
  destruct ((0 <=? off) && (off + Z.of_nat n <=? size buffer));
    discriminate.
Qed.

Lemma load_in_bounds (n : nat) (buffer : list Byte.byte) (off v : Z) :
  load n buffer off = Returns v ->
  0 <= off /\ off + Z.of_nat n <= size buffer.
Proof.
  unfold load.
  destruct ((0 <=? off) && (off + Z.of_nat n <=? size buffer)) eqn:E;
    [|discriminate].
  intros _. apply andb_true_iff in E. rewrite !Z.leb_le in E. exact E.
Qed.

Lemma c_string_total (buffer : list Byte.byte) (off : Z) :
  c_string buffer off <> Diverges.
Proof.
  unfold c_string.
  destruct ((0 <=? off) && (off <? size buffer)); [|discriminate].
  induction (skipn (Z.to_nat off) buffer) as [|b bs IH];
    cbn [c_string_from]; [discriminate|].
  destruct (Ascii.eqb (ascii_of_byte b) NUL); [discriminate|].
  apply bind_total; [exact IH|]. intros; discriminate.
Qed.

Lemma export_loop_total (export_directory : list Byte.byte)
    (module_base VirtualAddress Size : Z)
    (name_table name_ordinal_table function_table : Z)
    (function_name : list ascii) :
  size export_directory < 2 ^ 32 ->
  forall (fuel : nat) (i : Z),
    0 <= i <= size export_directory ->
    (i = 0 \/ 0 <= name_table) ->
    size export_directory < Z.of_nat fuel + i ->
    export_loop fuel export_directory module_base VirtualAddress Size
      name_table name_ordinal_table function_table function_name i
    <> Diverges.
Proof.
  intros Hsize.
  induction fuel as [|fuel IH]; intros i Hi Hnt Hfuel; [lia|].
  cbn [export_loop].
  apply bind_total; [apply load_total|]. intros NumberOfNames _.
  destruct (i <? NumberOfNames); [|discriminate].
  apply bind_total; [apply load_total|]. intros name_rva Hname.
  apply load_in_bounds in Hname.
  apply bind_total; [apply c_string_total|]. intros current _.
  destruct (negb (string_view_eqb current function_name)).
  - rewrite u32_small by lia. apply IH; lia.
  - apply bind_total; [apply load_total|]. intros ordinal _.
    apply bind_total; [apply load_total|]. intros rva _. discriminate.
Qed.

(** [get_module_export_by_name] comes to an end on every module: the walk
    is given one unit of fuel per byte of the export directory and spends
    four bytes of name table per turn. *)
Lemma get_module_export_by_name_total (os : OS) (st : Session)
    (module_base : Z) (function_name : list ascii) :
  get_module_export_by_name os st module_base function_name <> Diverges.
Proof.
  unfold get_module_export_by_name.
  assert (Hheaders : read_nt_headers os st module_base <> Diverges).
  { unfold read_nt_headers.
    destruct (read_memory os st module_base 4096); [|discriminate].
    apply bind_total; [apply load_total|]. intros e_magic _.
    destruct (negb (e_magic =? IMAGE_DOS_SIGNATURE)); [discriminate|].
    apply bind_total; [apply load_total|]. intros e_lfanew _.
    apply bind_total; [apply load_total|]. intros Signature _.
    destruct (negb (Signature =? IMAGE_NT_SIGNATURE)); discriminate. }
  apply bind_total; [exact Hheaders|]. intros [[headers nt_headers]|] _;
    [|discriminate].
  apply bind_total; [apply load_total|]. intros VirtualAddress _.
  apply bind_total; [apply load_total|]. intros Size HSize.
  destruct ((VirtualAddress =? 0) || (Size =? 0)); [discriminate|].
  destruct (read_memory os st (u64 (module_base + VirtualAddress)) Size)
    as [export_directory|] eqn:Hread; [|discriminate].
  apply read_memory_size in Hread. apply load_range in HSize.
  change (256 ^ Z.of_nat 4) with (2 ^ 32) in HSize.
  apply bind_total; [apply load_total|]. intros AddressOfNames _.
  apply bind_total; [apply load_total|]. intros AddressOfNameOrdinals _.
  apply bind_total; [apply load_total|]. intros AddressOfFunctions _.
  apply export_loop_total.
  - unfold size. lia.
  - pose proof (size_nonneg export_directory). lia.
  - now left.
  - unfold size. lia.
Qed.

(** * Further properties of the code *)

(** ** The pattern compiler on any input *)

Lemma from_chars_pair_range (c d : ascii) (v : Z) :
  from_chars [c; d] = Some v -> -15 <= v <= 255.
Proof.
  assert (Hsome : forall e : Z,
             (if between INT32_MIN e INT32_MAX then Some e else None)
             = Some v -> e = v).
  { intros e. destruct (between INT32_MIN e INT32_MAX); congruence. }
  unfold from_chars.
  destruct (Ascii.eqb c "-").
  - cbn [leading_digits].
    destruct (hex_digit d) as [x|] eqn:Ed; [|discriminate].
    apply hex_digit_range in Ed. unfold digits_value. cbn [fold_left].
    intros H. apply Hsome in H. lia.
  - cbn [leading_digits].
    destruct (hex_digit c) as [x|] eqn:Ec; [|discriminate].
    apply hex_digit_range in Ec.
    destruct (hex_digit d) as [y|] eqn:Ed.
    + apply hex_digit_range in Ed. unfold digits_value. cbn [fold_left].
      intros H. apply Hsome in H. lia.
    + unfold digits_value. cbn [fold_left].
      intros H. apply Hsome in H. lia.
Qed.

Lemma compile_range (s : list ascii) :
  Forall (fun v => -15 <= v <= 255) (compile s).
Proof.
  assert (H : forall n s, (length s <= n)%nat ->
                          Forall (fun v => -15 <= v <= 255) (compile s)).
  { clear s. induction n as [|n IH]; intros s Hs.
    - destruct s; [constructor | cbn in Hs; lia].
    - destruct s as [|c rest]; [constructor|].
      cbn [length] in Hs. cbn [compile].
      assert (Hrest : Forall (fun v => -15 <= v <= 255) (compile rest))
        by (apply IH; lia).
      destruct (Ascii.eqb c "?"); [constructor; [lia | exact Hrest]|].
      destruct (Ascii.eqb c " "); [exact Hrest|].
      destruct rest as [|d rest']; [constructor|].
      destruct (from_chars [c; d]) as [v|] eqn:E; [|exact Hrest].
      constructor.
      + eapply from_chars_pair_range. exact E.
      + apply IH. cbn [length] in Hs. lia. }
  apply (H (length s)). lia.
Qed.

(** X1. On every pattern string (shorter than 2^32 characters) the
    compiler returns: the loop ends, there are at most as many slots as
    characters, and every slot lies in -15..255 (a byte, the wildcard -1,
    or the negation of one hex digit). *)
Theorem pattern_to_bytes_slots (pattern : list ascii) :
  size pattern < 2 ^ 32 ->
  exists bytes,
    pattern_to_bytes pattern = Returns bytes
    /\ size bytes <= size pattern
    /\ Forall (fun v => -15 <= v <= 255) bytes.
Proof.
  intros Hlen. exists (compile pattern).
  split; [now apply pattern_to_bytes_compile|].
  split; [apply compile_size | apply compile_range].
Qed.

Lemma pattern_to_bytes_slots_witness :
  exists bytes,
    pattern_to_bytes (str "48 -f zz 8") = Returns bytes
    /\ size bytes <= 10
    /\ Forall (fun v => -15 <= v <= 255) bytes.
Proof.
  apply (pattern_to_bytes_slots (str "48 -f zz 8")). reflexivity.
Defined.

(** ** Letter case of the hex digits *)

Lemma to_upper_plain (c : ascii) :
  hex_digit (to_upper c) = hex_digit c
  /\ Ascii.eqb (to_upper c) "?" = Ascii.eqb c "?"
  /\ Ascii.eqb (to_upper c) " " = Ascii.eqb c " "
  /\ Ascii.eqb (to_upper c) "-" = Ascii.eqb c "-".
Proof.
  destruct c as [[] [] [] [] [] [] [] []]; vm_compute; repeat split.
Qed.

Lemma to_lower_plain (c : ascii) :
  hex_digit (to_lower c) = hex_digit c
  /\ Ascii.eqb (to_lower c) "?" = Ascii.eqb c "?"
  /\ Ascii.eqb (to_lower c) " " = Ascii.eqb c " "
  /\ Ascii.eqb (to_lower c) "-" = Ascii.eqb c "-".
Proof.
  destruct c as [[] [] [] [] [] [] [] []]; vm_compute; repeat split.
Qed.

Lemma compile_map (f : ascii -> ascii) :
  (forall c, hex_digit (f c) = hex_digit c
             /\ Ascii.eqb (f c) "?" = Ascii.eqb c "?"
             /\ Ascii.eqb (f c) " " = Ascii.eqb c " "
             /\ Ascii.eqb (f c) "-" = Ascii.eqb c "-") ->
  forall s, compile (map f s) = compile s.
Proof.
  intros Hf.
  assert (Hfrom : forall c d, from_chars [f c; f d] = from_chars [c; d]).
  { intros c d. unfold from_chars.
    destruct (Hf c) as (Hc & _ & _ & Hm). destruct (Hf d) as (Hd & _).
    rewrite Hm. destruct (Ascii.eqb c "-"); cbn [leading_digits];
      rewrite ?Hc, ?Hd; reflexivity. }
  assert (H : forall n s, (length s <= n)%nat -> compile (map f s) = compile s).
  { induction n as [|n IH]; intros s Hs.
    - destruct s; [reflexivity | cbn in Hs; lia].
    - destruct s as [|c rest]; [reflexivity|].
      cbn [length] in Hs. cbn [map compile].
      destruct (Hf c) as (_ & Hq & Hs' & _). rewrite Hq, Hs'.
      assert (Hrest : compile (map f rest) = compile rest)
        by (apply IH; lia).
      destruct (Ascii.eqb c "?"); [now rewrite Hrest|].
      destruct (Ascii.eqb c " "); [exact Hrest|].
      destruct rest as [|d rest']; [reflexivity|].
      cbn [map]. rewrite Hfrom.
      destruct (from_chars [c; d]).
      + f_equal. apply IH. cbn [length] in Hs. lia.
      + exact Hrest. }
  intros s. apply (H (length s)). lia.
Qed.

(** X2. The compiler does not tell the letter case of hex digits apart: a
    pattern string, the same string in upper case and the same string in
    lower case compile to the same slots. *)
Theorem pattern_to_bytes_ignores_case (pattern : list ascii) :
  size pattern < 2 ^ 32 ->
  pattern_to_bytes (map to_upper pattern) = pattern_to_bytes pattern
  /\ pattern_to_bytes (map to_lower pattern) = pattern_to_bytes pattern.
Proof.
  intros Hlen.
  assert (Hsize : forall f : ascii -> ascii,
             size (map f pattern) < 2 ^ 32)
    by (intros f; unfold size in *; now rewrite length_map).
  rewrite !pattern_to_bytes_compile by auto.
  now rewrite (compile_map to_upper to_upper_plain),
              (compile_map to_lower to_lower_plain).
Qed.

Lemma pattern_to_bytes_ignores_case_witness :
  pattern_to_bytes (str "48 8B 0D ? C1 EB")
  = pattern_to_bytes (str "48 8b 0d ? c1 eb").
Proof.
  apply (proj2 (pattern_to_bytes_ignores_case (str "48 8B 0D ? C1 EB")
                  eq_refl)).
Defined.

(** ** What [std::from_chars] lets through *)

Lemma from_chars_single (h c : ascii) :
  is_hex h = true -> is_hex c = false ->
  from_chars [h; c] = Some (hex_value h).
Proof.
  intros Hh Hc. destruct (is_hex_plain h Hh) as (_ & _ & Hminus).
  pose proof (hex_value_range h) as Rh.
  unfold from_chars. rewrite Hminus. cbn [leading_digits].
  rewrite (is_hex_value h Hh).
  unfold is_hex in Hc. destruct (hex_digit c); [discriminate|].
  unfold digits_value. cbn [fold_left].
  replace (16 * 0 + hex_value h) with (hex_value h) by lia.
  unfold between, INT32_MIN, INT32_MAX.
  replace (- 2 ^ 31 <=? hex_value h) with true
    by (symmetry; apply Z.leb_le; lia).
  replace (hex_value h <=? 2 ^ 31 - 1) with true
    by (symmetry; apply Z.leb_le; lia).
  reflexivity.
Qed.

Lemma from_chars_minus (d : ascii) :
  is_hex d = true -> from_chars ["-"%char; d] = Some (- hex_value d).
Proof.
  intros Hd. pose proof (hex_value_range d) as Rd.
  unfold from_chars. change (Ascii.eqb "-" "-") with true. cbv iota.
  cbn [leading_digits]. rewrite (is_hex_value d Hd).
  unfold digits_value. cbn [fold_left].
  replace (16 * 0 + hex_value d) with (hex_value d) by lia.
  unfold between, INT32_MIN, INT32_MAX.
  replace (- 2 ^ 31 <=? - hex_value d) with true
    by (symmetry; apply Z.leb_le; lia).
  replace (- hex_value d <=? 2 ^ 31 - 1) with true
    by (symmetry; apply Z.leb_le; lia).
  reflexivity.
Qed.

(** X3. A hex digit followed by a character that is not a hex digit (a
    space, a [?], anything) is not skipped: it yields a slot with the value
    of the digit, 0..15, and the character after it is consumed without
    being looked at, so that a [?] there yields no wildcard.  A [-]
    followed by a hex digit [d] yields the slot [-d]; "-1" is thereby a
    wildcard. *)
Theorem pattern_to_bytes_lenient (rest : list ascii) :
  size rest + 2 < 2 ^ 32 ->
  (forall h c,
      is_hex h = true -> is_hex c = false ->
      pattern_to_bytes (h :: c :: rest)
      = bytes <- pattern_to_bytes rest ;; Returns (hex_value h :: bytes))
  /\ (forall d,
        is_hex d = true ->
        pattern_to_bytes ("-"%char :: d :: rest)
        = bytes <- pattern_to_bytes rest ;; Returns (- hex_value d :: bytes))
  /\ pattern_to_bytes ("-"%char :: "1"%char :: rest)
     = pattern_to_bytes ("?"%char :: " "%char :: rest).
Proof.
  intros Hlen.
  assert (Hrest : pattern_to_bytes rest = Returns (compile rest))
    by (apply pattern_to_bytes_compile; lia).
  assert (Hcons : forall a b, size (a :: b :: rest) < 2 ^ 32)
    by (intros a b; rewrite !size_cons; lia).
  split; [|split].
  - intros h c Hh Hc. destruct (is_hex_plain h Hh) as (Hq & Hs & _).
    rewrite Hrest, pattern_to_bytes_compile by apply Hcons.
    cbn [bind compile]. now rewrite Hq, Hs, (from_chars_single h c Hh Hc).
  - intros d Hd.
    rewrite Hrest, pattern_to_bytes_compile by apply Hcons.
    cbn [bind compile]. change (Ascii.eqb "-" "?") with false.
    change (Ascii.eqb "-" " ") with false. cbv iota.
    now rewrite (from_chars_minus d Hd).
  - rewrite !pattern_to_bytes_compile by apply Hcons. reflexivity.
Qed.

Lemma pattern_to_bytes_lenient_witness :
  pattern_to_bytes (str "4? 8B") = Returns [4; 0x8B]
  /\ pattern_to_bytes (str "-f 8B") = Returns [-15; 0x8B].
Proof.
  pose proof (pattern_to_bytes_lenient (str " 8B") eq_refl)
    as (Hsingle & Hminus & _).
  split.
  - apply (Hsingle "4"%char "?"%char eq_refl eq_refl).
  - apply (Hminus "f"%char eq_refl).
Defined.

(** ** What [find_pattern] reports *)

Lemma match_from_true (ps : list Z) :
  forall bs : list Byte.byte,
    match_from bs ps = Returns true ->
    size ps <= size bs /\ matches_at bs ps 0.
Proof.
  induction ps as [|p ps IH]; intros bs H.
  - split; [apply size_nonneg | apply matches_at_nil].
  - cbn [match_from] in H. destruct bs as [|b bs]; [discriminate|].
    destruct (negb (byte_Z b =? p) && negb (p =? -1)) eqn:E;
      [discriminate|].
    destruct (IH bs H) as [Hsize Hm]. split; [rewrite !size_cons; lia|].
    apply matches_at_cons. split; [|exact Hm].
    apply andb_false_iff in E. rewrite !negb_false_iff, !Z.eqb_eq in E.
    intuition.
Qed.

Lemma match_from_no (ps : list Z) :
  forall bs : list Byte.byte,
    match_from bs ps = Returns false -> ~ matches_at bs ps 0.
Proof.
  induction ps as [|p ps IH]; intros bs H Hm; [discriminate|].
  cbn [match_from] in H. destruct bs as [|b bs]; [discriminate|].
  apply matches_at_cons in Hm. destruct Hm as [Hp Hm].
  destruct (negb (byte_Z b =? p) && negb (p =? -1)) eqn:E.
  - apply andb_true_iff in E. rewrite !negb_true_iff, !Z.eqb_neq in E. lia.
  - now apply (IH bs H).
Qed.

Lemma scan_loop_sound (B : list Byte.byte) (pattern : list ascii)
    (P : list Z) (k : Z) :
  size B + size P < 2 ^ 32 ->
  forall (fuel : nat) (i : Z),
    0 <= i <= size B ->
    (forall k', 0 <= k' < i -> ~ matches_at B P k') ->
    scan_loop fuel B pattern P i = Returns (Some k) ->
    0 <= k /\ k + size P <= size B /\ matches_at B P k
    /\ forall k', 0 <= k' < k -> ~ matches_at B P k'.
Proof.
  intros Hsum. pose proof (size_nonneg P) as HP0.
  induction fuel as [|fuel IH]; intros i Hi Hbefore H; [discriminate|].
  cbn [scan_loop] in H.
  destruct (i <? u64 (size B - size pattern)); [|discriminate].
  rewrite match_loop_match_from in H by lia.
  destruct (match_from (skipn (Z.to_nat i) B) P) as [[|]| |] eqn:E;
    cbn [bind] in H; try discriminate.
  - inversion H; subst k. clear H.
    apply match_from_true in E. destruct E as [Hsize Hm].
    rewrite size_skipn in Hsize by lia.
    rewrite matches_at_skipn in Hm by lia.
    repeat split; try lia; assumption.
  - assert (Hlt : i < size B).
    { apply match_from_false in E.
      destruct (Z.eq_dec i (size B)) as [->|]; [|lia].
      rewrite to_nat_size, skipn_all in E. now elim E. }
    apply match_from_no in E. rewrite matches_at_skipn in E by lia.
    rewrite u32_small in H by lia.
    apply (IH (i + 1)); [lia| |exact H].
    intros k' Hk'. destruct (Z.eq_dec k' i) as [->|]; [exact E|].
    apply Hbefore. lia.
Qed.

Lemma scan_sound (B : list Byte.byte) (pattern : list ascii) (P : list Z)
    (k : Z) :
  size B + size P < 2 ^ 32 ->
  scan B pattern P = Returns (Some k) ->
  0 <= k /\ k + size P <= size B /\ matches_at B P k
  /\ forall k', 0 <= k' < k -> ~ matches_at B P k'.
Proof.
  intros Hsum H. unfold scan in H.
  apply (scan_loop_sound B pattern P k Hsum (S (length B)) 0);
    [| |exact H].
  - pose proof (size_nonneg B). lia.
  - intros k' Hk'. lia.
Qed.

Lemma find_pattern_found (os : OS) (st : Session)
    (module_name pattern : list ascii) (module_base : Z)
    (module_data : list Byte.byte) (address : Z) :
  get_module_base_by_name os st module_name = Returns (Some module_base) ->
  module_image os st module_base = Returns (Some module_data) ->
  size pattern < 2 ^ 32 ->
  find_pattern os st module_name pattern = Returns (Some address) ->
  exists k,
    scan module_data pattern (compile pattern) = Returns (Some k)
    /\ address = u64 (module_base + k).
Proof.
  intros Hbase Himage Hlen H.
  rewrite (find_pattern_scan _ _ _ _ _ _ Hbase Himage Hlen) in H.
  destruct (scan module_data pattern (compile pattern)) as [[k|]| |];
    cbn [bind] in H; try discriminate.
  exists k. split; [reflexivity|]. now inversion H.
Qed.



(** X5. When the pattern string is no longer than the image, the scan
    stays inside the image and [find_pattern] returns the smallest offset
    below [|B| - |pattern string|] at which the compiled pattern matches,
    or nothing when there is none below that bound. *)
Theorem find_pattern_first_match (os : OS) (st : Session)
    (module_name pattern : list ascii) (module_base : Z)
    (module_data : list Byte.byte) :
  get_module_base_by_name os st module_name = Returns (Some module_base) ->
  module_image os st module_base = Returns (Some module_data) ->
  size pattern <= size module_data ->
  exists P,
    pattern_to_bytes pattern = Returns P
    /\ ((find_pattern os st module_name pattern = Returns None
         /\ forall k, 0 <= k < size module_data - size pattern ->
                      ~ matches_at module_data P k)
        \/ exists k,
             find_pattern os st module_name pattern
             = Returns (Some (u64 (module_base + k)))
             /\ 0 <= k < size module_data - size pattern
             /\ matches_at module_data P k
             /\ forall k', 0 <= k' < k -> ~ matches_at module_data P k').
Proof.
  intros Hbase Himage Hfits.
  pose proof (module_image_size _ _ _ _ Himage) as HB.
  assert (Hlen : size pattern < 2 ^ 32) by lia.
  exists (compile pattern).
  split; [now apply pattern_to_bytes_compile|].
  rewrite (find_pattern_scan _ _ _ _ _ _ Hbase Himage Hlen).
  destruct (scan_spec module_data pattern (compile pattern) Hfits HB
              (compile_size pattern))
    as [[Hnone Hall] | (k & Hsome & Hk & Hm & Hmin)].
  - left. rewrite Hnone. split; [reflexivity | exact Hall].
  - right. exists k. rewrite Hsome. split; [reflexivity|]. auto.
Qed.

Lemma find_pattern_first_match_witness :
  exists P,
    pattern_to_bytes (str "50 45 ? 00") = Returns P
    /\ ((find_pattern (Target.os 0x1000 Target.one_page Target.handle)
           Target.attached (str "client.dll") (str "50 45 ? 00")
         = Returns None
         /\ forall k, 0 <= k < size (Target.contents 0x1000 Target.one_page)
                                 - size (str "50 45 ? 00") ->
                      ~ matches_at (Target.contents 0x1000 Target.one_page)
                          P k)
        \/ exists k,
             find_pattern (Target.os 0x1000 Target.one_page Target.handle)
               Target.attached (str "client.dll") (str "50 45 ? 00")
             = Returns (Some (u64 (Target.base + k)))
             /\ 0 <= k < size (Target.contents 0x1000 Target.one_page)
                         - size (str "50 45 ? 00")
             /\ matches_at (Target.contents 0x1000 Target.one_page) P k
             /\ forall k', 0 <= k' < k ->
                  ~ matches_at (Target.contents 0x1000 Target.one_page)
                      P k').
Proof.
  apply (find_pattern_first_match
           (Target.os 0x1000 Target.one_page Target.handle) Target.attached
           (str "client.dll") (str "50 45 ? 00") Target.base
           (Target.contents 0x1000 Target.one_page)
           (client_dll_base _ _ _) one_page_image).
  rewrite contents_size. vm_compute. discriminate.
Defined.

(** X6. When the pattern string is longer than the image, [find_pattern]
    never answers that there is no match: the unsigned bound has wrapped,
    and the call either reports a match or runs off the local copy of the
    image. *)
Theorem find_pattern_longer_pattern (os : OS) (st : Session)
    (module_name pattern : list ascii) (module_base : Z)
    (module_data : list Byte.byte) :
  get_module_base_by_name os st module_name = Returns (Some module_base) ->
  module_image os st module_base = Returns (Some module_data) ->
  size module_data < size pattern ->
  size module_data + size pattern < 2 ^ 32 ->
  find_pattern os st module_name pattern = Undefined
  \/ exists k,
       find_pattern os st module_name pattern
       = Returns (Some (u64 (module_base + k))).
Proof.
  intros Hbase Himage Hlong Hsum.
  pose proof (size_nonneg module_data) as HB0.
  rewrite (find_pattern_scan _ _ _ _ _ _ Hbase Himage) by lia.
  destruct (scan_pattern_longer module_data pattern (compile pattern)
              Hlong Hsum (compile_size pattern)) as [-> | (k & ->)].
  - now left.
  - right. now exists k.
Qed.

Lemma find_pattern_longer_pattern_witness :
  find_pattern (Target.os 0x1000 Target.one_page Target.handle)
    Target.attached (str "client.dll") (Target.wildcards 0x1001)
  = Undefined
  \/ exists k,
       find_pattern (Target.os 0x1000 Target.one_page Target.handle)
         Target.attached (str "client.dll") (Target.wildcards 0x1001)
       = Returns (Some (u64 (Target.base + k))).
Proof.
  apply (find_pattern_longer_pattern
           (Target.os 0x1000 Target.one_page Target.handle) Target.attached
           (str "client.dll") (Target.wildcards 0x1001) Target.base
           (Target.contents 0x1000 Target.one_page)
           (client_dll_base _ _ _) one_page_image).
  - rewrite contents_size. unfold size, Target.wildcards.
    rewrite repeat_length. reflexivity.
  - rewrite contents_size. unfold size, Target.wildcards.
    rewrite repeat_length. reflexivity.
Defined.

Lemma matches_at_slot_range (B : list Byte.byte) (P : list Z) (k : Z) :
  matches_at B P k -> Forall (fun p => -1 <= p <= 255) P.
Proof.
  intros Hm. apply Forall_forall. intros p Hin.
  apply In_nth_error in Hin. destruct Hin as [j Hj].
  assert (Hlt : (j < length P)%nat)
    by (apply nth_error_Some; congruence).
  destruct (Hm (Z.of_nat j)) as (b & p' & _ & Hp' & Hor);
    [unfold size; lia|].
  rewrite Nat2Z.id, Hj in Hp'. inversion Hp'; subst p'.
  pose proof (byte_Z_range b). lia.
Qed.

(** X7. A pattern with a slot that is neither a byte nor the wildcard (a
    token such as "-5" compiles to the slot -5) is never found: whenever
    [find_pattern] returns an address, every slot of the compiled pattern
    lies in -1..255. *)
Theorem find_pattern_slots_in_range (os : OS) (st : Session)
    (module_name pattern : list ascii) (module_base : Z)
    (module_data : list Byte.byte) (address : Z) :
  get_module_base_by_name os st module_name = Returns (Some module_base) ->
  module_image os st module_base = Returns (Some module_data) ->
  size module_data + size pattern < 2 ^ 32 ->
  find_pattern os st module_name pattern = Returns (Some address) ->
  exists P,
    pattern_to_bytes pattern = Returns P
    /\ Forall (fun p => -1 <= p <= 255) P.
Proof.
  intros Hbase Himage Hsum H.
  pose proof (size_nonneg module_data) as HB0.
  pose proof (compile_size pattern) as HP.
  assert (Hlen : size pattern < 2 ^ 32) by lia.
  destruct (find_pattern_found _ _ _ _ _ _ _ Hbase Himage Hlen H)
    as (k & Hscan & _).
  exists (compile pattern).
  split; [now apply pattern_to_bytes_compile|].
  apply (scan_sound module_data pattern (compile pattern) k) in Hscan;
    [|lia].
  destruct Hscan as (_ & _ & Hm & _).
  eapply matches_at_slot_range. exact Hm.
Qed.

Lemma find_pattern_slots_in_range_witness :
  exists P,
    pattern_to_bytes (str "50 45 ? 00") = Returns P
    /\ Forall (fun p => -1 <= p <= 255) P.
Proof.
  apply (find_pattern_slots_in_range
           (Target.os 0x1000 Target.one_page Target.handle) Target.attached
           (str "client.dll") (str "50 45 ? 00") Target.base
           (Target.contents 0x1000 Target.one_page) (Target.base + 0x80)
           (client_dll_base _ _ _) one_page_image).
  - rewrite contents_size. reflexivity.
  - vm_compute. reflexivity.
Defined.

(** ** Header validation *)

Lemma byte_of_byte_Z (b : Byte.byte) (z : Z) :
  byte_Z b = z -> Byte.of_N (Z.to_N z) = Some b.
Proof.
  intros <-. unfold byte_Z. rewrite N2Z.id. apply Byte.of_to_N.
Qed.

Lemma load_bytes (n : nat) (buffer : list Byte.byte) (off v : Z) :
  load n buffer off = Returns v ->
  exists bs,
    firstn n (skipn (Z.to_nat off) buffer) = bs
    /\ length bs = n /\ le_combine bs = v.
Proof.
  intros H. pose proof (load_in_bounds _ _ _ _ H) as [Hoff Hend].
  unfold load in H.
  destruct ((0 <=? off) && (off + Z.of_nat n <=? size buffer));
    [|discriminate].
  inversion H as [Hv]. eexists. split; [reflexivity|].
  split; [|reflexivity].
  rewrite length_firstn, length_skipn. unfold size in Hend. lia.
Qed.

Lemma le_combine_MZ (bs : list Byte.byte) :
  length bs = 2%nat -> le_combine bs = IMAGE_DOS_SIGNATURE ->
  bs = [Byte.x4d; Byte.x5a].
Proof.
  destruct bs as [|a [|b [|? ?]]]; try discriminate. intros _.
  unfold IMAGE_DOS_SIGNATURE. cbn [le_combine].
  pose proof (byte_Z_range a). pose proof (byte_Z_range b). intros Hv.
  assert (Ha : byte_Z a = 0x4D) by lia.
  assert (Hb : byte_Z b = 0x5A) by lia.
  apply byte_of_byte_Z in Ha, Hb. cbn in Ha, Hb. congruence.
Qed.

Lemma le_combine_PE (bs : list Byte.byte) :
  length bs = 4%nat -> le_combine bs = IMAGE_NT_SIGNATURE ->
  bs = [Byte.x50; Byte.x45; Byte.x00; Byte.x00].
Proof.
  destruct bs as [|a [|b [|c [|d [|? ?]]]]]; try discriminate. intros _.
  unfold IMAGE_NT_SIGNATURE. cbn [le_combine].
  pose proof (byte_Z_range a). pose proof (byte_Z_range b).
  pose proof (byte_Z_range c). pose proof (byte_Z_range d). intros Hv.
  assert (Ha : byte_Z a = 0x50) by lia.
  assert (Hb : byte_Z b = 0x45) by lia.
  assert (Hc : byte_Z c = 0) by lia.
  assert (Hd : byte_Z d = 0) by lia.
  apply byte_of_byte_Z in Ha, Hb, Hc, Hd. cbn in Ha, Hb, Hc, Hd. congruence.
Qed.

Lemma read_nt_headers_signed (os : OS) (st : Session) (module_base : Z)
    (headers : list Byte.byte) (nt_headers : Z) :
  read_nt_headers os st module_base = Returns (Some (headers, nt_headers)) ->
  signed_module os st module_base.
Proof.
  unfold read_nt_headers.
  destruct (read_memory os st module_base 4096) as [h|] eqn:Hread;
    [|discriminate].
  destruct (load 2 h e_magic_offset) as [e_magic| |] eqn:Emagic;
    cbn [bind]; try discriminate.
  destruct (e_magic =? IMAGE_DOS_SIGNATURE) eqn:Edos; cbn [negb];
    [|discriminate].
  destruct (load 4 h e_lfanew_offset) as [e_lfanew| |] eqn:Elfanew;
    cbn [bind]; try discriminate.
  destruct (load 4 h (sign_extend_i32 e_lfanew + Signature_offset))
    as [Signature| |] eqn:Esig; cbn [bind]; try discriminate.
  destruct (Signature =? IMAGE_NT_SIGNATURE) eqn:Ent; cbn [negb];
    [|discriminate].
  intros H. inversion H; subst h nt_headers. clear H.
  apply Z.eqb_eq in Edos, Ent.
  pose proof (read_memory_size _ _ _ _ _ Hread) as Hlen.
  pose proof (load_in_bounds _ _ _ _ Esig) as [Hlo Hhi].
  unfold Signature_offset in *. rewrite Z.add_0_r in *.
  unfold size in Hhi. rewrite Hlen in Hhi.
  apply load_bytes in Emagic, Esig.
  destruct Emagic as (bs2 & Hbs2 & Hlen2 & Hv2).
  destruct Esig as (bs4 & Hbs4 & Hlen4 & Hv4).
  exists headers, e_lfanew.
  split; [exact Hread|]. split.
  - change (firstn 2 headers)
      with (firstn 2 (skipn (Z.to_nat e_magic_offset) headers)).
    rewrite Hbs2. apply le_combine_MZ; congruence.
  - split; [exact Elfanew|]. split; [exact Hlo|]. split; [lia|].
    rewrite Hbs4. apply le_combine_PE; congruence.
Qed.

(** X8. [find_pattern] and [get_module_export_by_name] answer with an
    address only for a module that carries both signatures: the first
    0x1000 bytes at its base are readable, they begin with "MZ", and the
    four bytes at [e_lfanew], inside that page, are "PE\0\0". *)
Theorem results_only_from_signed_modules (os : OS) (st : Session)
    (module_base address : Z) :
  (forall module_name pattern,
      get_module_base_by_name os st module_name
      = Returns (Some module_base) ->
      find_pattern os st module_name pattern = Returns (Some address) ->
      signed_module os st module_base)
  /\ (forall function_name,
        get_module_export_by_name os st module_base function_name
        = Returns (Some address) ->
        signed_module os st module_base).
Proof.
  split.
  - intros module_name pattern Hbase H. unfold find_pattern in H.
    rewrite Hbase in H. cbn [bind] in H. unfold module_image in H.
    destruct (read_nt_headers os st module_base)
      as [[[headers nt]|]| |] eqn:E; cbn [bind] in H; try discriminate.
    eapply read_nt_headers_signed. exact E.
  - intros function_name H. unfold get_module_export_by_name in H.
    destruct (read_nt_headers os st module_base)
      as [[[headers nt]|]| |] eqn:E; cbn [bind] in H; try discriminate.
    eapply read_nt_headers_signed. exact E.
Qed.

Lemma results_only_from_signed_modules_witness :
  signed_module (Target.os 0x1000 Target.one_page Target.handle)
    Target.attached Target.base.
Proof.
  apply (proj1 (results_only_from_signed_modules
                  (Target.os 0x1000 Target.one_page Target.handle)
                  Target.attached Target.base (Target.base + 0x80))
           (str "client.dll") (str "50 45 ? 00")).
  - reflexivity.
  - vm_compute. reflexivity.
Defined.

Lemma read_nt_headers_unsigned (os : OS) (st : Session) (module_base : Z) :
  read_memory os st module_base 0x1000 = None
  \/ (exists headers,
        read_memory os st module_base 0x1000 = Some headers
        /\ firstn 2 headers <> [Byte.x4d; Byte.x5a]) ->
  read_nt_headers os st module_base = Returns None.
Proof.
  unfold read_nt_headers. intros [-> | (headers & Hread & Hmz)];
    [reflexivity|].
  rewrite Hread.
  destruct (load 2 headers e_magic_offset) as [e_magic| |] eqn:E.
  - cbn [bind].
    destruct (e_magic =? IMAGE_DOS_SIGNATURE) eqn:Edos; [|reflexivity].
    apply Z.eqb_eq in Edos. apply load_bytes in E.
    destruct E as (bs & Hbs & Hlen & Hv). elim Hmz.
    change (firstn 2 headers)
      with (firstn 2 (skipn (Z.to_nat e_magic_offset) headers)).
    rewrite Hbs. apply le_combine_MZ; congruence.
  - (* the page holds 0x1000 bytes: the field is inside *)
    exfalso. unfold load in E.
    assert (Hlen : size headers = 0x1000).
    { unfold size. rewrite (read_memory_size _ _ _ _ _ Hread).
      reflexivity. }
    revert E. rewrite Hlen. cbn. discriminate.
  - now apply load_total in E.
Qed.

(** X9. A module whose first 0x1000 bytes cannot be read, or do not begin
    with "MZ", gives nothing: [get_module_export_by_name] and
    [find_pattern] both return [nullopt], without looking at [e_lfanew]. *)
Theorem unsigned_module_gives_nothing (os : OS) (st : Session)
    (module_base : Z) :
  read_memory os st module_base 0x1000 = None
  \/ (exists headers,
        read_memory os st module_base 0x1000 = Some headers
        /\ firstn 2 headers <> [Byte.x4d; Byte.x5a]) ->
  (forall function_name,
      get_module_export_by_name os st module_base function_name
      = Returns None)
  /\ (forall module_name pattern,
        get_module_base_by_name os st module_name
        = Returns (Some module_base) ->
        find_pattern os st module_name pattern = Returns None).
Proof.
  intros Hbad. apply read_nt_headers_unsigned in Hbad. split.
  - intros function_name. unfold get_module_export_by_name.
    now rewrite Hbad.
  - intros module_name pattern Hbase. unfold find_pattern.
    rewrite Hbase. cbn [bind]. unfold module_image. now rewrite Hbad.
Qed.

Lemma unsigned_module_gives_nothing_witness :
  get_module_export_by_name (Target.os 0x1000 Target.zeros Target.handle)
    Target.attached Target.base (str "Sym")
  = Returns None
  /\ find_pattern (Target.os 0x800 Target.one_page Target.handle)
       Target.attached (str "client.dll") (str "4D 5A")
     = Returns None.
Proof.
  split.
  - assert (Hbad : read_memory
                     (Target.os 0x1000 Target.zeros Target.handle)
                     Target.attached Target.base 0x1000 = None
                   \/ exists headers,
                        read_memory
                          (Target.os 0x1000 Target.zeros Target.handle)
                          Target.attached Target.base 0x1000 = Some headers
                        /\ firstn 2 headers <> [Byte.x4d; Byte.x5a]).
    { right. exists (Target.contents 0x1000 Target.zeros).
      split; [vm_compute; reflexivity | vm_compute; discriminate]. }
    exact (proj1 (unsigned_module_gives_nothing _ _ _ Hbad) (str "Sym")).
  - assert (Hbad : read_memory
                     (Target.os 0x800 Target.one_page Target.handle)
                     Target.attached Target.base 0x1000 = None
                   \/ exists headers,
                        read_memory
                          (Target.os 0x800 Target.one_page Target.handle)
                          Target.attached Target.base 0x1000 = Some headers
                        /\ firstn 2 headers <> [Byte.x4d; Byte.x5a]).
    { left. vm_compute. reflexivity. }
    exact (proj2 (unsigned_module_gives_nothing _ _ _ Hbad)
             (str "client.dll") (str "4D 5A") eq_refl).
Defined.

(** ** Exports *)

Lemma string_view_eqb_eq (a b : list ascii) :
  string_view_eqb a b = true -> a = b.
Proof.
  revert b. induction a as [|x a IH]; intros [|y b]; cbn [string_view_eqb];
    try discriminate; [reflexivity|].
  rewrite andb_true_iff. intros [Hxy Hab].
  apply Ascii.eqb_eq in Hxy. f_equal; [exact Hxy | now apply IH].
Qed.

Lemma matched_export_some (module_base VirtualAddress Size rva a : Z) :
  matched_export module_base VirtualAddress Size rva = Some a ->
  a = u64 (module_base + rva)
  /\ ~ (u64 (module_base + VirtualAddress) <= a
        <= u64 (u64 (module_base + VirtualAddress) + Size)).
Proof.
  unfold matched_export.
  destruct (u64 (module_base + VirtualAddress) <=? u64 (module_base + rva))
    eqn:E1;
    destruct (u64 (module_base + rva)
              <=? u64 (u64 (module_base + VirtualAddress) + Size)) eqn:E2;
    cbn [andb]; try discriminate; intros [= <-];
    (split; [reflexivity|]);
    rewrite ?Z.leb_le, ?Z.leb_gt in E1, E2; lia.
Qed.

Lemma export_loop_sound (dir : list Byte.byte)
    (module_base VirtualAddress Size : Z)
    (name_table name_ordinal_table function_table : Z)
    (function_name : list ascii) (a : Z) :
  forall (fuel : nat) (i : Z),
    0 <= i ->
    export_loop fuel dir module_base VirtualAddress Size
      name_table name_ordinal_table function_table function_name i
    = Returns (Some a) ->
    exists NumberOfNames i' name_rva ordinal rva,
      load 4 dir NumberOfNames_offset = Returns NumberOfNames
      /\ 0 <= i' < NumberOfNames
      /\ load 4 dir (name_table + 4 * i') = Returns name_rva
      /\ c_string dir (name_rva - VirtualAddress) = Returns function_name
      /\ load 2 dir (name_ordinal_table + 2 * i') = Returns ordinal
      /\ load 4 dir (function_table + 4 * ordinal) = Returns rva
      /\ matched_export module_base VirtualAddress Size rva = Some a.
Proof.
  induction fuel as [|fuel IH]; intros i Hi H; [discriminate|].
  cbn [export_loop] in H.
  destruct (load 4 dir NumberOfNames_offset) as [NumberOfNames| |] eqn:En;
    cbn [bind] in H; try discriminate.
  destruct (i <? NumberOfNames) eqn:Elt; [|discriminate].
  apply Z.ltb_lt in Elt.
  destruct (load 4 dir (name_table + 4 * i)) as [name_rva| |] eqn:Ename;
    cbn [bind] in H; try discriminate.
  destruct (c_string dir (name_rva - VirtualAddress)) as [current| |] eqn:Ec;
    cbn [bind] in H; try discriminate.
  destruct (string_view_eqb current function_name) eqn:Eeq; cbn [negb] in H.
  - apply string_view_eqb_eq in Eeq. subst current.
    destruct (load 2 dir (name_ordinal_table + 2 * i)) as [ordinal| |]
      eqn:Eord; cbn [bind] in H; try discriminate.
    destruct (load 4 dir (function_table + 4 * ordinal)) as [rva| |]
      eqn:Erva; cbn [bind] in H; try discriminate.
    exists NumberOfNames, i, name_rva, ordinal, rva.
    inversion H. repeat split; auto; lia.
  - pose proof (load_range _ _ _ _ En) as Hn.
    change (256 ^ Z.of_nat 4) with (2 ^ 32) in Hn.
    rewrite u32_small in H by lia.
    destruct (IH (i + 1) ltac:(lia) H)
      as (n' & i' & name_rva' & ordinal & rva & Hn' & Hi' & Hrest).
    exists n', i', name_rva', ordinal, rva.
    split; [exact Hn'|]. split; [lia | exact Hrest].
Qed.

(** X10. An address that [get_module_export_by_name] returns comes from
    the export directory of the module: some name slot below
    [NumberOfNames] bears exactly the requested name, the address is
    [module_base] plus the function RVA that the ordinal of that slot leads
    to, and it lies outside the closed range from [module_base + VA] to
    [module_base + VA + Size] of the directory. *)
Theorem get_module_export_by_name_sound (os : OS) (st : Session)
    (module_base : Z) (function_name : list ascii) (address : Z) :
  get_module_export_by_name os st module_base function_name
  = Returns (Some address) ->
  exists VirtualAddress Size dir i rva,
    export_directory_of os st module_base VirtualAddress Size dir
    /\ export_slot dir VirtualAddress i function_name rva
    /\ address = u64 (module_base + rva)
    /\ ~ (u64 (module_base + VirtualAddress) <= address
          <= u64 (u64 (module_base + VirtualAddress) + Size)).
Proof.
  unfold get_module_export_by_name. intros H.
  destruct (read_nt_headers os st module_base)
    as [[[headers nt]|]| |] eqn:Eh; cbn [bind] in H; try discriminate.
  match type of H with
  | context [load 4 headers ?o] =>
      destruct (load 4 headers o) as [VirtualAddress| |] eqn:Eva;
        cbn [bind] in H; try discriminate
  end.
  match type of H with
  | context [load 4 headers ?o] =>
      destruct (load 4 headers o) as [Size| |] eqn:Esz;
        cbn [bind] in H; try discriminate
  end.
  destruct ((VirtualAddress =? 0) || (Size =? 0)) eqn:Ezero;
    [discriminate|].
  apply orb_false_iff in Ezero. rewrite !Z.eqb_neq in Ezero.
  destruct (read_memory os st (u64 (module_base + VirtualAddress)) Size)
    as [dir|] eqn:Edir; [|discriminate].
  destruct (load 4 dir AddressOfNames_offset) as [AoN| |] eqn:EAoN;
    cbn [bind] in H; try discriminate.
  destruct (load 4 dir AddressOfNameOrdinals_offset) as [AoNO| |] eqn:EAoNO;
    cbn [bind] in H; try discriminate.
  destruct (load 4 dir AddressOfFunctions_offset) as [AoF| |] eqn:EAoF;
    cbn [bind] in H; try discriminate.
  apply export_loop_sound in H; [|lia].
  destruct H as (n & i & name_rva & ordinal & rva & Hn & Hi & Hname & Hc
                 & Hord & Hrva & Hm).
  apply matched_export_some in Hm. destruct Hm as [Ha Hout].
  exists VirtualAddress, Size, dir, i, rva.
  split; [|split; [|split; assumption]].
  - exists headers, nt. tauto.
  - exists n, AoN, AoNO, AoF, name_rva, ordinal. tauto.
Qed.

Lemma get_module_export_by_name_sound_witness :
  exists VirtualAddress Size dir i rva,
    export_directory_of
      (Target.os 0x2000 (Target.image_with_export 0x1800) Target.handle)
      Target.attached Target.base VirtualAddress Size dir
    /\ export_slot dir VirtualAddress i (str "Sym") rva
    /\ Target.base + 0x1800 = u64 (Target.base + rva)
    /\ ~ (u64 (Target.base + VirtualAddress) <= Target.base + 0x1800
          <= u64 (u64 (Target.base + VirtualAddress) + Size)).
Proof.
  apply (get_module_export_by_name_sound
           (Target.os 0x2000 (Target.image_with_export 0x1800)
              Target.handle)
           Target.attached Target.base (str "Sym") (Target.base + 0x1800)).
  vm_compute. reflexivity.
Defined.

(** ** Snapshot lookups *)

(** X11. The lookups answer only with what the snapshot holds: a PID that
    [get_process_id_by_name] returns is the PID of a snapshot entry (after
    the first) whose image name is exactly the requested name, and a base
    that [get_module_base_by_name] returns is the base of a module entry
    (after the first) whose name [equals_ignore_case] accepts. *)
Theorem lookups_sound (os : OS) (st : Session) (name : list ascii) :
  (forall id,
      get_process_id_by_name os name = Returns (Some id) ->
      exists l e,
        process_list os = Some l /\ In e (tl l)
        /\ szExeFile e = name /\ th32ProcessID e = id)
  /\ (forall module_base,
        get_module_base_by_name os st name = Returns (Some module_base) ->
        exists l e,
          module_list os (process_id st) = Some l /\ In e (tl l)
          /\ equals_ignore_case (szModule e) name = true
          /\ modBaseAddr e = module_base).
Proof.
  split.
  - intros id H.
    destruct (process_list os) as [l|] eqn:El.
    + rewrite (get_process_id_by_name_tail os name l El) in H.
      destruct (find (process_named name) (tl l)) as [e|] eqn:Ef;
        [|discriminate].
      apply find_some in Ef. destruct Ef as [Hin Hname].
      exists l, e. split; [reflexivity|]. split; [exact Hin|].
      split; [now apply string_view_eqb_eq | now inversion H].
    + unfold get_process_id_by_name in H. rewrite El in H. discriminate.
  - intros module_base H.
    destruct (module_list os (process_id st)) as [l|] eqn:El.
    + rewrite (get_module_base_by_name_tail os st name l El) in H.
      destruct (find (module_named name) (tl l)) as [e|] eqn:Ef;
        [|discriminate].
      apply find_some in Ef. destruct Ef as [Hin Hname].
      exists l, e. split; [reflexivity|]. split; [exact Hin|].
      split; [exact Hname | now inversion H].
    + unfold get_module_base_by_name in H. rewrite El in H. discriminate.
Qed.

Lemma lookups_sound_witness :
  exists l e,
    process_list (Target.os 0 Target.zeros 0) = Some l /\ In e (tl l)
    /\ szExeFile e = str "cs2.exe" /\ th32ProcessID e = Target.pid.
Proof.
  apply (proj1 (lookups_sound (Target.os 0 Target.zeros 0) uninitialized
                  (str "cs2.exe")) Target.pid).
  reflexivity.
Defined.

(** X12. [loaded_modules] returns [nullopt] exactly when the module
    snapshot cannot be taken; on every snapshot it returns a list, which is
    empty when the snapshot has no more than one entry. *)
Theorem loaded_modules_none (os : OS) (st : Session) :
  (loaded_modules os st = Returns None
   <-> module_list os (process_id st) = None)
  /\ (forall l,
        module_list os (process_id st) = Some l -> (length l <= 1)%nat ->
        loaded_modules os st = Returns (Some [])).
Proof.
  split; [split|].
  - destruct (module_list os (process_id st)) as [l|] eqn:El;
      [|reflexivity].
    rewrite (loaded_modules_tail os st l El). discriminate.
  - intros Hnone. unfold loaded_modules. now rewrite Hnone.
  - intros l El Hlen. rewrite (loaded_modules_tail os st l El).
    destruct l as [|e [|e' l]]; try reflexivity. cbn [length] in Hlen. lia.
Qed.

Lemma loaded_modules_none_witness :
  loaded_modules (Target.os 0 Target.zeros 0) uninitialized = Returns None.
Proof.
  apply (proj2 (proj1 (loaded_modules_none (Target.os 0 Target.zeros 0)
                         uninitialized))).
  reflexivity.
Defined.

(** ** [attach] on success *)

(** X13. When [attach] returns true, the session holds the PID that
    [get_process_id_by_name] found for the name and the handle that
    [OpenProcess] gave for that PID, and the handle is not null. *)
Theorem attach_success (os : OS) (st st' : Session)
    (process_name : list ascii) :
  attach os st process_name = Returns (true, st') ->
  exists id,
    get_process_id_by_name os process_name = Returns (Some id)
    /\ process_id st' = id
    /\ process_handle st' = OpenProcess os id
    /\ process_handle st' <> 0.
Proof.
  unfold attach.
  destruct (get_process_id_by_name os process_name) as [[id|]| |];
    cbn [bind process_id process_handle]; try discriminate.
  intros H. inversion H as [[Hopen Hst]]. exists id.
  apply negb_true_iff, Z.eqb_neq in Hopen. cbn [process_id process_handle].
  repeat split; auto.
Qed.

Lemma attach_success_witness :
  exists id,
    get_process_id_by_name (Target.os 0 Target.zeros Target.handle)
      (str "cs2.exe") = Returns (Some id)
    /\ process_id Target.attached = id
    /\ process_handle Target.attached
       = OpenProcess (Target.os 0 Target.zeros Target.handle) id
    /\ process_handle Target.attached <> 0.
Proof.
  apply (attach_success (Target.os 0 Target.zeros Target.handle)
           uninitialized Target.attached (str "cs2.exe")).
  reflexivity.
Defined.

(** ** The call sites of main.cpp *)

(** X14. [get_entity_list] and [get_view_matrix] return 0 whenever the
    module snapshot cannot be taken or no entry after its first entry is
    named "client.dll" (in any letter case): the missing module becomes a
    zero address, not an error. *)
Theorem globals_zero_without_client_dll (os : OS) (st : Session) :
  module_list os (process_id st) = None
  \/ (exists l,
        module_list os (process_id st) = Some l
        /\ forall e, In e (tl l) ->
                     module_named (str "client.dll") e = false) ->
  get_entity_list os st = Returns 0 /\ get_view_matrix os st = Returns 0.
Proof.
  intros Hmissing.
  assert (Hbase : get_module_base_by_name os st (str "client.dll")
                  = Returns None).
  { destruct Hmissing as [Hnone | (l & Hl & Hall)].
    - unfold get_module_base_by_name. now rewrite Hnone.
    - rewrite (get_module_base_by_name_tail os st _ l Hl).
      now rewrite (find_none_all _ _ Hall). }
  unfold get_entity_list, get_view_matrix, find_pattern.
  rewrite Hbase. split; reflexivity.
Qed.

Lemma globals_zero_without_client_dll_witness :
  get_entity_list (Target.os 0x1000 Target.one_page Target.handle)
    uninitialized = Returns 0
  /\ get_view_matrix (Target.os 0x1000 Target.one_page Target.handle)
       uninitialized = Returns 0.
Proof.
  apply (globals_zero_without_client_dll
           (Target.os 0x1000 Target.one_page Target.handle) uninitialized).
  left. reflexivity.
Defined.

(** ** [read_string] and the length bound *)

Lemma read_string_until_NUL (os : OS) (st : Session) (address length : Z) :
  read_string os st address length
  = match read_memory os st address length with
    | None => []
    | Some bytes => until_NUL (map ascii_of_byte bytes)
    end.
Proof.
  unfold read_string.
  destruct (read_memory os st address length) as [bytes|]; [|reflexivity].
  induction (map ascii_of_byte bytes) as [|c buffer IH]; [reflexivity|].
  cbn [find_char until_NUL].
  destruct (Ascii.eqb c NUL); [reflexivity|].
  destruct (find_char NUL buffer) as [it|]; cbn [option_map firstn];
    now rewrite <- IH.
Qed.

Lemma read_bytes_prefix (mem : Z -> option Byte.byte) (m : nat) :
  forall (address : Z) (bs : list Byte.byte) (n : nat),
    read_bytes mem address m = Some bs -> (n <= m)%nat ->
    read_bytes mem address n = Some (firstn n bs).
Proof.
  induction m as [|m IH]; intros address bs n H Hn.
  - assert (n = 0)%nat as -> by lia. reflexivity.
  - cbn [read_bytes] in H.
    destruct (mem address) as [b|] eqn:Eb; [|discriminate].
    destruct (read_bytes mem (address + 1) m) as [bs'|] eqn:E;
      [|discriminate].
    inversion H; subst bs. destruct n as [|n]; [reflexivity|].
    cbn [read_bytes firstn]. rewrite Eb, (IH _ _ n E) by lia. reflexivity.
Qed.

Lemma read_memory_prefix (os : OS) (st : Session) (address n m : Z)
    (bs : list Byte.byte) :
  0 <= n <= m ->
  read_memory os st address m = Some bs ->
  read_memory os st address n = Some (firstn (Z.to_nat n) bs).
Proof.
  unfold read_memory, ReadProcessMemory. intros Hn.
  destruct (process_handle st =? 0); cbn [orb]; [discriminate|].
  destruct (2 ^ 64 <? address + m) eqn:Em; [discriminate|].
  apply Z.ltb_ge in Em.
  replace (2 ^ 64 <? address + n) with false
    by (symmetry; apply Z.ltb_ge; lia).
  intros H. apply (read_bytes_prefix _ _ _ _ _ H). lia.
Qed.

Lemma until_NUL_firstn (buffer : list ascii) :
  forall n : nat,
    (exists rest,
        until_NUL buffer = until_NUL (firstn n buffer) ++ rest)
    /\ ((length (until_NUL (firstn n buffer)) < n)%nat ->
        until_NUL buffer = until_NUL (firstn n buffer)).
Proof.
  induction buffer as [|c buffer IH]; intros n.
  - rewrite firstn_nil. split; [now exists [] | reflexivity].
  - destruct n as [|n].
    + cbn [firstn until_NUL]. split; [eexists; reflexivity|].
      cbn [length]. lia.
    + cbn [firstn until_NUL]. destruct (Ascii.eqb c NUL).
      * split; [now exists [] | reflexivity].
      * destruct (IH n) as [(rest & Hrest) Hstable]. split.
        -- exists rest. cbn [app]. now rewrite <- Hrest.
        -- cbn [length]. intros Hlt. f_equal. apply Hstable. lia.
Qed.

(** X15. The length bound of [read_string] only cuts: when the read of
    [m] bytes succeeds and [n <= m], the string read with the bound [n] is
    a prefix of the string read with the bound [m]; and when the string
    read with the bound [n] is shorter than [n] (its NUL was found), the
    larger bound gives the same string. *)
Theorem read_string_bound (os : OS) (st : Session) (address n m : Z)
    (bytes : list Byte.byte) :
  0 <= n <= m ->
  read_memory os st address m = Some bytes ->
  (exists rest,
      read_string os st address m = read_string os st address n ++ rest)
  /\ (size (read_string os st address n) < n ->
      read_string os st address m = read_string os st address n).
Proof.
  intros Hn Hm.
  rewrite !read_string_until_NUL, Hm, (read_memory_prefix _ _ _ _ _ _ Hn Hm).
  rewrite <- firstn_map.
  destruct (until_NUL_firstn (map ascii_of_byte bytes) (Z.to_nat n))
    as [Hprefix Hstable].
  split; [exact Hprefix|]. intros Hlt. apply Hstable.
  unfold size in Hlt. lia.
Qed.

Lemma read_string_bound_witness :
  read_string (Target.os 0x1000 Target.one_page Target.handle)
    Target.attached Target.base 64
  = read_string (Target.os 0x1000 Target.one_page Target.handle)
      Target.attached Target.base 8.
Proof.
  apply (proj2 (read_string_bound
                  (Target.os 0x1000 Target.one_page Target.handle)
                  Target.attached Target.base 8 64
                  (Target.contents 64 Target.one_page)
                  ltac:(lia) ltac:(vm_compute; reflexivity))).
  vm_compute. reflexivity.
Defined.
